(** * Markdown normalisation engine of [scripts/convert_toml_to_readme.py]

    A shallow embedding of [_normalize_markdownlint] and of the helpers it
    closes over, followed by the properties the specification states about
    it.

    Data model.  A Python [str] is a sequence of Unicode code points: it is
    modelled as [list N].  The dictionaries keyed by an indentation string
    ([ol_counters], [last_list_type], [ol_marker_width]) and the dictionary
    keyed by heading text ([heading_counts]) are finite maps ([gmap]).  The
    [while i < len(src)] loops walk a list; the one look-ahead of the main
    pass ([src[i + 1]]) and the look-ahead of the second pass ([out[j]]) are
    read from the remaining suffix. *)

From Stdlib Require Import NArith List Bool Ascii String Lia Arith DecimalFacts.
From stdpp Require Import gmap.
Import ListNotations.

#[local] Set Warnings "-comment-terminator-in-string".

Local Open Scope N_scope.
Local Open Scope list_scope.

(** ** Python strings *)

Abbreviation char := N (only parsing).
Abbreviation str := (list N) (only parsing).

Definition NL : char := 10.
Definition CR : char := 13.
Definition TAB : char := 9.
Definition SP : char := 32.

(** [py] reads a literal the way the Python source spells it: the bytes are
    decoded as UTF-8 and the escapes [\n], [\t], [\r] and [\\] are
    interpreted. *)
Fixpoint py (s : string) : str :=
  match s with
  | EmptyString => []
  | String a s1 =>
    let b0 := N_of_ascii a in
    if b0 =? 92 then
      match s1 with
      | String e s2 =>
        let c := N_of_ascii e in
        (if c =? 110 then NL else if c =? 116 then TAB
         else if c =? 114 then CR else c) :: py s2
      | EmptyString => [b0]
      end
    else if b0 <? 128 then b0 :: py s1
    else if b0 <? 224 then
      match s1 with
      | String a1 s2 => ((b0 - 192) * 64 + (N_of_ascii a1 - 128)) :: py s2
      | _ => []
      end
    else if b0 <? 240 then
      match s1 with
      | String a1 (String a2 s3) =>
        ((b0 - 224) * 4096 + (N_of_ascii a1 - 128) * 64
         + (N_of_ascii a2 - 128)) :: py s3
      | _ => []
      end
    else
      match s1 with
      | String a1 (String a2 (String a3 s4)) =>
        ((b0 - 240) * 262144 + (N_of_ascii a1 - 128) * 4096
         + (N_of_ascii a2 - 128) * 64 + (N_of_ascii a3 - 128)) :: py s4
      | _ => []
      end
  end.

Arguments py : simpl never.

Definition str_eqb (a b : str) : bool := bool_decide (a = b).

(** [str.isspace] of one code point ([Py_UNICODE_ISSPACE]); the same table
    decides [\s] in [re] and what [strip], [lstrip] and [rstrip] remove. *)
Definition is_space (c : char) : bool :=
  ((9 <=? c) && (c <=? 13)) || ((28 <=? c) && (c <=? 32))
  || (c =? 133) || (c =? 160) || (c =? 5760)
  || ((8192 <=? c) && (c <=? 8202))
  || (c =? 8232) || (c =? 8233) || (c =? 8239) || (c =? 8287)
  || (c =? 12288).

Fixpoint take_while {A} (p : A -> bool) (s : list A) : list A :=
  match s with
  | c :: t => if p c then c :: take_while p t else []
  | [] => []
  end.

Fixpoint drop_while {A} (p : A -> bool) (s : list A) : list A :=
  match s with
  | c :: t => if p c then drop_while p t else s
  | [] => []
  end.

(** [s.lstrip()] *)
Definition lstrip (s : str) : str := drop_while is_space s.

(** The list without its longest suffix of elements satisfying [p]: what
    is left of a Python list after [while l and p(l[-1]): l.pop()], and of a
    string after [rstrip]. *)
Fixpoint drop_while_end {A} (p : A -> bool) (s : list A) : list A :=
  match s with
  | [] => []
  | c :: t =>
    match drop_while_end p t with
    | [] => if p c then [] else [c]
    | r => c :: r
    end
  end.

(** [s.rstrip(chars)] for a predicate on code points. *)
Definition rstrip_by (p : char -> bool) (s : str) : str := drop_while_end p s.

(** [s.rstrip()] *)
Definition rstrip (s : str) : str := rstrip_by is_space s.

(** [s.strip()] *)
Definition strip (s : str) : str := lstrip (rstrip s).

(** [s.startswith(p)] *)
Fixpoint startswith (p s : str) : bool :=
  match p, s with
  | [], _ => true
  | a :: p', b :: s' => (a =? b) && startswith p' s'
  | _ :: _, [] => false
  end.

(** [p in s] *)
Fixpoint contains (p s : str) : bool :=
  startswith p s || match s with [] => false | _ :: t => contains p t end.

(** [s.split("\n")] *)
Fixpoint split_nl (s : str) : list str :=
  match s with
  | [] => [[]]
  | c :: t =>
    if c =? NL then [] :: split_nl t
    else match split_nl t with
         | l :: ls => (c :: l) :: ls
         | [] => [[c]]
         end
  end.

(** ["\n".join(ls)] *)
Fixpoint join_nl (ls : list str) : str :=
  match ls with
  | [] => []
  | [l] => l
  | l :: ls' => l ++ NL :: join_nl ls'
  end.

(** [s.replace("\r\n", "\n")] *)
Fixpoint replace_crlf (s : str) : str :=
  match s with
  | [] => []
  | c :: t =>
    match t with
    | d :: t' => if (c =? CR) && (d =? NL) then NL :: replace_crlf t'
                 else c :: replace_crlf t
    | [] => [c]
    end
  end.

(** [s.replace("\r", "\n")] *)
Definition replace_cr (s : str) : str :=
  map (fun c => if c =? CR then NL else c) s.

(** [s.expandtabs(tabsize)], with the column [col] reached so far: a tab
    pads to the next multiple of [tabsize]; a line break resets the column. *)
Fixpoint expandtabs_from (tabsize col : nat) (s : str) : str :=
  match s with
  | [] => []
  | c :: t =>
    if c =? TAB then
      match tabsize with
      | O => expandtabs_from tabsize col t
      | _ =>
        let incr := (tabsize - col mod tabsize)%nat in
        repeat SP incr ++ expandtabs_from tabsize (col + incr) t
      end
    else if (c =? NL) || (c =? CR) then c :: expandtabs_from tabsize 0 t
    else c :: expandtabs_from tabsize (S col) t
  end.

Definition expandtabs (tabsize : nat) (s : str) : str :=
  expandtabs_from tabsize 0 s.

(** [str(n)] for a non-negative integer. *)
Fixpoint digits_of_uint (d : Decimal.uint) : str :=
  match d with
  | Decimal.Nil => []
  | Decimal.D0 d' => 48 :: digits_of_uint d'
  | Decimal.D1 d' => 49 :: digits_of_uint d'
  | Decimal.D2 d' => 50 :: digits_of_uint d'
  | Decimal.D3 d' => 51 :: digits_of_uint d'
  | Decimal.D4 d' => 52 :: digits_of_uint d'
  | Decimal.D5 d' => 53 :: digits_of_uint d'
  | Decimal.D6 d' => 54 :: digits_of_uint d'
  | Decimal.D7 d' => 55 :: digits_of_uint d'
  | Decimal.D8 d' => 56 :: digits_of_uint d'
  | Decimal.D9 d' => 57 :: digits_of_uint d'
  end.

Definition str_of_nat (n : nat) : str := digits_of_uint (Nat.to_uint n).

(** Python truthiness of a string. *)
Definition nonempty (s : str) : bool :=
  match s with [] => false | _ => true end.


(** ** Character classes of the Python runtime

    [\d] and [\w] of a [str] pattern follow the Unicode database of the
    interpreter.  Below 128 both are fixed; above, they are read from the
    tables the runtime ships, taken here as a parameter.  Two facts that
    hold of every Unicode version are built in: a decimal digit is never
    white space, and every decimal digit is a word character. *)

Record UnicodeTables := {
  uni_decimal : N -> bool;   (* category Nd, code points from 128 on *)
  uni_alnum : N -> bool      (* [str.isalnum], code points from 128 on *)
}.

(** The tables of a runtime that knows no digit or letter outside ASCII. *)
Definition ascii_tables : UnicodeTables :=
  {| uni_decimal := fun _ => false; uni_alnum := fun _ => false |}.

Definition HASH : char := 35.
Definition GT : char := 62.
Definition LT : char := 60.
Definition DASH : char := 45.
Definition PERCENT : char := 37.

(** The character class "[-*+]". *)
Definition is_ul_mark (c : char) : bool := (c =? 45) || (c =? 42) || (c =? 43).
(** The character class "[*+]". *)
Definition is_star_plus (c : char) : bool := (c =? 42) || (c =? 43).
(** The character class "[.)]". *)
Definition is_ol_delim (c : char) : bool := (c =? 46) || (c =? 41).

Definition starts_with_space (s : str) : bool :=
  match s with c :: _ => is_space c | [] => false end.

(** [is_blank] *)
Definition is_blank (ln : str) : bool := negb (nonempty (strip ln)).

(** [leading_ws_len] *)
Definition leading_ws_len (s : str) : nat := (length s - length (lstrip s))%nat.

(** [_re_heading_level], pattern "^(?P<marks>#{1,6})\s+", matched at the start:
    the number of marks and the end offset of the match. *)
Definition re_heading_level (s : str) : option (nat * nat) :=
  let k := length (take_while (N.eqb HASH) s) in
  if (1 <=? k)%nat && (k <=? 6)%nat then
    let w := length (take_while is_space (drop k s)) in
    if (1 <=? w)%nat then Some (k, (k + w)%nat) else None
  else None.

(** [_re_heading], pattern "^#{1,6}\s+" *)
Definition re_heading (s : str) : bool :=
  match re_heading_level s with Some _ => true | None => false end.

(** [split_blockquote_prefix]: the pattern
    "^(?P<prefix>\s*(?:>\s*)+)(?P<body>.*)$".  The prefix is the leading
    white space, a [>], and the longest run of [>] and white space after
    it.  Lines never hold a line feed (they come out of [split]), so
    the body group takes the rest. *)
Definition split_blockquote_prefix (ln : str) : str * str :=
  let ind := take_while is_space ln in
  let r := drop_while is_space ln in
  match r with
  | c :: _ =>
    if c =? GT then
      let run := take_while (fun c => (c =? GT) || is_space c) r in
      (ind ++ run, drop (length run) r)
    else ([], ln)
  | [] => ([], ln)
  end.

(** [strip_blockquote] *)
Definition strip_blockquote (ln : str) : str := snd (split_blockquote_prefix ln).

(** [is_code_fence] *)
Definition is_code_fence (ln : str) : bool := startswith (py "```") (strip ln).

(** [is_blankish]: blank, or a full match of "\s*(?:>\s*)+\s*". *)
Definition is_blankish (ln : str) : bool :=
  is_blank ln
  || (forallb (fun c => (c =? GT) || is_space c) ln && existsb (N.eqb GT) ln).

(** The argument of [rstrip] in [strip_heading_trailing_punct]. *)
Definition heading_punct : str := py "：:。．，,；;！？!?、".

Definition is_heading_punct (c : char) : bool := existsb (N.eqb c) heading_punct.

(** [strip_heading_trailing_punct] *)
Definition strip_heading_trailing_punct (heading_line : str) : str :=
  let s := rstrip heading_line in
  match re_heading_level s with
  | None => heading_line
  | Some (k, e) =>
    let rest := rstrip (drop e s) in
    let rest := rstrip_by is_heading_punct rest in
    rstrip (repeat HASH k ++ [SP] ++ rest)
  end.

(** [_re_bare_url], pattern "(?<!\()(?<!<)https?://[^\s>]+". *)
Definition is_url_char (c : char) : bool := negb (is_space c) && negb (c =? GT).

(** Length of the match of "https?://[^\s>]+" at the start of [s]. *)
Definition bare_url_match (s : str) : option nat :=
  if startswith (py "http") s then
    let r := drop 4 s in
    let k := if startswith (py "s") r then 5%nat else 4%nat in
    let r := drop k s in
    if startswith (py "://") r then
      let u := take_while is_url_char (drop 3 r) in
      if nonempty u then Some (k + 3 + length u)%nat else None
    else None
  else None.

(** The two look-behinds, on the character before the position. *)
Definition url_lookbehind (prev : option N) : bool :=
  match prev with
  | Some c => negb (c =? 40) && negb (c =? LT)
  | None => true
  end.

(** [_re_bare_url.sub] with the replacement "<{m.group(0)}>": the leftmost match
    is wrapped and the scan goes on after it.  Every round consumes a
    character, so [length s] rounds are enough. *)
Fixpoint re_sub_bare_url_from (fuel : nat) (prev : option N) (s : str) : str :=
  match fuel with
  | O => s
  | S fuel' =>
    match s with
    | [] => []
    | c :: t =>
      match (if url_lookbehind prev then bare_url_match s else None) with
      | Some n =>
        [LT] ++ take n s ++ [GT]
        ++ re_sub_bare_url_from fuel' (last (take n s)) (drop n s)
      | None => c :: re_sub_bare_url_from fuel' (Some c) t
      end
    end
  end.

Definition re_sub_bare_url (s : str) : str :=
  re_sub_bare_url_from (length s) None s.

(** Lines 449-451. *)
Definition wrap_bare_urls (body : str) : str :=
  if contains (py "http://") body || contains (py "https://") body
  then re_sub_bare_url body else body.

Section Engine.

Context (U : UnicodeTables).

(** The class "\d". *)
Definition is_digit (c : char) : bool :=
  if c <? 128 then (48 <=? c) && (c <=? 57)
  else uni_decimal U c && negb (is_space c).

(** The class "\w". *)
Definition is_word (c : char) : bool :=
  is_digit c
  || (if c <? 128
      then ((65 <=? c) && (c <=? 90)) || ((97 <=? c) && (c <=? 122)) || (c =? 95)
      else uni_alnum U c).

(** "\d+[.)]\s+" at the start of [r]: the digits, the delimiter and the
    end offset. *)
Definition ol_marker_at (r : str) : option (str * N * nat) :=
  let num := take_while is_digit r in
  if nonempty num then
    match drop (length num) r with
    | d :: t =>
      let w := length (take_while is_space t) in
      if is_ol_delim d && (1 <=? w)%nat
      then Some (num, d, (length num + 1 + w)%nat) else None
    | [] => None
    end
  else None.

(** [_re_list], pattern "^\s*(?:[-*+]\s+|\d+[.)]\s+)" *)
Definition re_list (s : str) : bool :=
  let r := lstrip s in
  match r with
  | c :: t =>
    (is_ul_mark c && starts_with_space t)
    || match ol_marker_at r with Some _ => true | None => false end
  | [] => false
  end.

(** "^(?P<indent>\s*)c\s+" for a marker class c: the indent and the end
    offset. *)
Definition re_marker (mark : N -> bool) (s : str) : option (str * nat) :=
  let indent := take_while is_space s in
  match drop (length indent) s with
  | c :: t =>
    let w := length (take_while is_space t) in
    if mark c && (1 <=? w)%nat then Some (indent, (length indent + 1 + w)%nat)
    else None
  | [] => None
  end.

(** [_re_ul_marker], pattern "^(?P<indent>\s*)[*+]\s+" *)
Definition re_ul_marker (s : str) : option (str * nat) := re_marker is_star_plus s.

(** [_re_ul_dash], pattern "^(?P<indent>\s*)-\s+" *)
Definition re_ul_dash (s : str) : option (str * nat) := re_marker (N.eqb DASH) s.

(** [_re_ol_marker], pattern
    "^(?P<indent>\s*)(?P<num>\d+)(?P<delim>[.)])\s+":
    indent, number, delimiter and end offset. *)
Definition re_ol_marker (s : str) : option (str * str * N * nat) :=
  let indent := take_while is_space s in
  match ol_marker_at (drop (length indent) s) with
  | Some (num, d, e) => Some (indent, num, d, (length indent + e)%nat)
  | None => None
  end.

(** [is_heading] *)
Definition is_heading (ln : str) : bool := re_heading (strip (strip_blockquote ln)).

(** [is_list] *)
Definition is_list (ln : str) : bool := re_list (strip_blockquote ln).

(** [re.search] of "\b\d+%\s*$" in [rest]: read from the end, the white space,
    the percent sign and the whole run of digits before it; the run starts
    at a word boundary when nothing or a non-word character precedes it. *)
Definition ends_with_percent (rest : str) : bool :=
  match rev (rstrip rest) with
  | c :: r1 =>
    (c =? PERCENT)
    && (let ds := take_while is_digit r1 in
        nonempty ds
        && match drop (length ds) r1 with
           | [] => true
           | b :: _ => negb (is_word b)
           end)
  | [] => false
  end.

(** [re.search] of "[（(]\s*\d+%\s*[）)]\s*$" in [rest], read from the end. *)
Definition looks_like_percent_item (rest : str) : bool :=
  match rev (rstrip rest) with
  | c :: r1 =>
    ((c =? 41) || (c =? 65289))
    && match drop_while is_space r1 with
       | p :: r3 =>
         (p =? PERCENT)
         && (let ds := take_while is_digit r3 in
             nonempty ds
             && match drop_while is_space (drop (length ds) r3) with
                | o :: _ => (o =? 40) || (o =? 65288)
                | [] => false
                end)
       | [] => false
       end
  | [] => false
  end.

(** The two [re.fullmatch] tests of line 472: "\s*[-*+]\s*" and
    "\s*\d+[.)]\s*". *)
Definition is_orphan_marker (body : str) : bool :=
  let s := strip body in
  match s with
  | [c] => is_ul_mark c
  | _ => false
  end
  || (let num := take_while is_digit s in
      nonempty num
      && match drop (length num) s with
         | [d] => is_ol_delim d
         | _ => false
         end).

(** [_re_bold_only], pattern
    "^(?P<indent>\s*)(?:\*\*|__)(?P<text>.+?)(?:\*\*|__)\s*$",
    with an empty [indent] group: the [text] group.  The closing marker is
    followed by white space only, so it sits at the end of the right-stripped
    body, and the text is what lies between the two markers. *)
Definition is_bold_mark (s : str) : bool :=
  str_eqb s (py "**") || str_eqb s (py "__").

Definition re_bold_only_text (body : str) : option str :=
  let r := rstrip body in
  let inner := drop 2 r in
  if is_bold_mark (take 2 r) && (3 <=? length inner)%nat
     && is_bold_mark (drop (length inner - 2) inner)
  then Some (take (length inner - 2) inner) else None.

(** ** The main pass (lines 410-626) *)

Inductive ListKind := OL | UL.

Definition is_ol (k : option ListKind) : bool :=
  match k with Some OL => true | _ => false end.

(** The variables of the main loop the list tracker reads and writes.
    [prev_list] is the tuple [(quote_prefix, kind, indent_len, rest)]. *)
Record State := mkState {
  in_code : bool;
  list_indent_stack : list nat;
  ol_counters : gmap (list N) nat;
  last_list_type : gmap (list N) ListKind;
  ol_marker_width : gmap (list N) nat;
  last_heading_level : nat;
  prev_list : option (list N * ListKind * nat * list N)
}.

Definition init_state : State := mkState false [] ∅ ∅ ∅ 0 None.

Definition set_in_code (b : bool) (st : State) : State :=
  mkState b (list_indent_stack st) (ol_counters st) (last_list_type st)
          (ol_marker_width st) (last_heading_level st) (prev_list st).

Definition set_stack (l : list nat) (st : State) : State :=
  mkState (in_code st) l (ol_counters st) (last_list_type st)
          (ol_marker_width st) (last_heading_level st) (prev_list st).

Definition set_tables (c : gmap (list N) nat) (t : gmap (list N) ListKind)
    (w : gmap (list N) nat) (st : State) : State :=
  mkState (in_code st) (list_indent_stack st) c t w
          (last_heading_level st) (prev_list st).

Definition set_heading_level (n : nat) (st : State) : State :=
  mkState (in_code st) (list_indent_stack st) (ol_counters st)
          (last_list_type st) (ol_marker_width st) n (prev_list st).

Definition set_prev_list (p : option (list N * ListKind * nat * list N))
    (st : State) : State :=
  mkState (in_code st) (list_indent_stack st) (ol_counters st)
          (last_list_type st) (ol_marker_width st) (last_heading_level st) p.

(** MD036, lines 453-460: a bold-only line outside a blockquote becomes a
    heading one level below the last heading. *)
Definition promote_bold_only (st : State) (quote_prefix body : str) : str :=
  if nonempty quote_prefix then body
  else
    match re_bold_only_text body with
    | Some t =>
      let text := strip t in
      if nonempty text && negb (startswith [HASH] text)
         && negb (startswith [GT] text) && negb (re_list text)
      then
        let level := Nat.min (Nat.max (last_heading_level st + 1) 2) 6 in
        repeat HASH level ++ [SP] ++ text
      else body
    | None => body
    end.

(** MD004 / MD030, lines 462-468. *)
Definition normalize_ul_marker (body : str) : str :=
  let body :=
    match re_ul_marker body with
    | Some (indent, e) => indent ++ [DASH; SP] ++ lstrip (drop e body)
    | None => body
    end in
  match re_ul_dash body with
  | Some (indent, e) => indent ++ [DASH; SP] ++ lstrip (drop e body)
  | None => body
  end.

(** The [for parent_indent_len in reversed(list_indent_stack)] loop of lines
    531-543 stops at the first entry, from the top of the stack, whose
    bucket is an ordered list with a recorded marker width; [parents] is
    the stack from the top down. *)
Fixpoint nearest_ol_ancestor (st : State) (parents : list nat) : option (nat * nat) :=
  match parents with
  | [] => None
  | parent_indent_len :: ps =>
    let parent_indent := repeat SP parent_indent_len in
    match ol_marker_width st !! parent_indent with
    | Some w =>
      if is_ol (last_list_type st !! parent_indent)
      then Some (parent_indent_len, w)
      else nearest_ol_ancestor st ps
    | None => nearest_ol_ancestor st ps
    end
  end.

(** The percent test applied to the previous item's text, line 517. *)
Definition has_percent (rest : str) : bool :=
  ends_with_percent rest || looks_like_percent_item rest.

(** Line 510-518: the condition of the score-breakdown heuristic. *)
Definition percent_promotion (st : State) (quote_prefix : str)
    (indent_len : nat) (ewp llp : bool) : bool :=
  (indent_len =? 2)%nat && (ewp || llp)
  && match prev_list st with
     | Some (q, k, n, r) =>
       str_eqb q quote_prefix
       && match k with UL => true | OL => false end
       && (n =? 2)%nat && negb (has_percent r)
     | None => false
     end.

(** MD005 / MD007, lines 495-548: indentation of an unordered item.  [e] is
    [m_ul_indent.end()]; every [body[m_ul_indent.end():]] slices the body
    as it stands at that point. *)
Definition normalize_ul_indent (st : State) (quote_prefix body indent : str)
    (e : nat) : str :=
  let indent_len := length indent in
  let rest := strip (drop e body) in
  let ewp := ends_with_percent rest in
  let llp := looks_like_percent_item rest in
  let '(body, indent_len) :=
    if percent_promotion st quote_prefix indent_len ewp llp
    then ([DASH; SP] ++ lstrip (drop e body), 0%nat)
    else (body, indent_len) in
  let body :=
    if (indent_len <=? 3)%nat && llp
    then [DASH; SP] ++ lstrip (drop e body) else body in
  let '(body, indent_len, indent_forced) :=
    match nearest_ol_ancestor st (rev (list_indent_stack st)) with
    | Some (parent_indent_len, w) =>
      let desired := (parent_indent_len + w)%nat in
      if (parent_indent_len <? indent_len)%nat then
        if (indent_len <? desired)%nat || negb (indent_len =? desired)%nat
        then (repeat SP desired ++ [DASH; SP] ++ lstrip (drop e body),
              desired, true)
        else (body, indent_len, true)
      else (body, indent_len, false)
    | None => (body, indent_len, false)
    end in
  if negb indent_forced && (4 <=? indent_len)%nat
  then repeat SP (Nat.max 0 (indent_len - 2)) ++ [DASH; SP] ++ lstrip (drop e body)
  else body.

(** MD005 / MD007, lines 481-548. *)
Definition normalize_list_indent (st : State) (quote_prefix body : str) : str :=
  match re_ol_marker body with
  | Some (indent, num, delim, e) =>
    let indent_len := length indent in
    let norm_indent :=
      if (indent_len <=? 3)%nat then []
      else if (4 <=? indent_len)%nat then repeat SP (Nat.max 0 (indent_len - 2))
      else indent in
    norm_indent ++ num ++ [delim; SP] ++ lstrip (drop e body)
  | None =>
    match re_ul_dash body with
    | Some (indent, e) => normalize_ul_indent st quote_prefix body indent e
    | None => body
    end
  end.

(** [while list_indent_stack and indent_len < list_indent_stack[-1]: pop()] *)
Definition pop_deeper (indent_len : nat) (stack : list nat) : list nat :=
  drop_while_end (fun top => (indent_len <? top)%nat) stack.

(** MD007, lines 566-582: the indentation stack. *)
Definition track_indent_stack (st : State) (body : str) : State * str :=
  if re_list body then
    let indent_len := leading_ws_len body in
    let '(body, indent_len) :=
      if (0 <? indent_len)%nat && negb (bool_decide (list_indent_stack st <> []))
      then (drop indent_len body, 0%nat) else (body, indent_len) in
    let stack := pop_deeper indent_len (list_indent_stack st) in
    let stack :=
      match last stack with
      | None => stack ++ [indent_len]
      | Some top => if (top <? indent_len)%nat then stack ++ [indent_len] else stack
      end in
    (set_stack stack st, body)
  else
    match last (list_indent_stack st) with
    | Some top =>
      let cont_indent := leading_ws_len body in
      if (cont_indent <? top + 2)%nat then (set_stack [] st, body) else (st, body)
    | None => (st, body)
    end.

(** MD029 / MD030, lines 584-605: ordered numbering and the three tables. *)
Definition renumber (st : State) (body : str) : State * str :=
  match re_ol_marker body with
  | Some (indent, num, delim, e) =>
    let width := <[indent := (length num + 2)%nat]> (ol_marker_width st) in
    let n :=
      if negb (is_ol (last_list_type st !! indent)) then 1%nat
      else (default 0%nat (ol_counters st !! indent) + 1)%nat in
    let counters := <[indent := n]> (ol_counters st) in
    let types := <[indent := OL]> (last_list_type st) in
    (set_tables counters types width st,
     indent ++ str_of_nat n ++ [delim; SP] ++ lstrip (drop e body))
  | None =>
    if re_list body then
      let indent := take (leading_ws_len body) body in
      (set_tables (delete indent (ol_counters st))
                  (<[indent := UL]> (last_list_type st))
                  (delete indent (ol_marker_width st)) st,
       body)
    else (set_tables ∅ ∅ ∅ st, body)
  end.

(** [quote_prefix.rstrip() if quote_prefix else ""] *)
Definition quote_blank (quote_prefix : str) : str :=
  if nonempty quote_prefix then rstrip quote_prefix else [].

(** Lines 612-620: what the next line will know of this item. *)
Definition prev_list_of (quote_prefix body : str)
    : option (list N * ListKind * nat * list N) :=
  match re_ol_marker body with
  | Some (indent, _, _, e) =>
    Some (quote_prefix, OL, length indent, strip (drop e body))
  | None =>
    match re_ul_dash body with
    | Some (indent, e) =>
      Some (quote_prefix, UL, length indent, strip (drop e body))
    | None => None
    end
  end.

(** Lines 550-564: a heading outside a blockquote. *)
Definition emit_heading (st : State) (out : list str) (body : str)
    (next : option str) : State * list str :=
  let st := set_stack [] st in
  let st := set_tables ∅ ∅ (ol_marker_width st) st in
  let st :=
    match re_heading_level (strip body) with
    | Some (k, _) => set_heading_level k st
    | None => st
    end in
  let out :=
    match last out with
    | Some l => if negb (is_blankish l) then out ++ [[]] else out
    | None => out
    end in
  let out := out ++ [strip_heading_trailing_punct (strip body)] in
  let out :=
    match next with
    | Some nxt => if negb (is_blank nxt) then out ++ [[]] else out
    | None => out
    end in
  (st, out).

(** Lines 566-626: list items and plain lines. *)
Definition emit_line (st : State) (out : list str) (quote_prefix body : str)
    : State * list str :=
  let '(st, body) := track_indent_stack st body in
  let '(st, body) := renumber st body in
  if re_list body then
    let out :=
      match last out with
      | Some l =>
        if negb (is_blankish l) && negb (is_heading l) && negb (is_list l)
        then out ++ [quote_blank quote_prefix] else out
      | None => out
      end in
    let out := out ++ [rstrip (quote_prefix ++ body)] in
    (set_prev_list (prev_list_of quote_prefix body) st, out)
  else
    (set_prev_list None st, out ++ [rstrip (quote_prefix ++ body)]).

(** Lines 447-468: the blockquote prefix is split off and the body goes
    through the rewrites that do not look at the list state. *)
Definition inline_rewrites (st : State) (raw : str) : str * str :=
  let '(quote_prefix, body) := split_blockquote_prefix raw in
  let body := wrap_bare_urls body in
  let body := promote_bold_only st quote_prefix body in
  let body := normalize_ul_marker body in
  (quote_prefix, body).

(** One round of the [while i < len(src)] loop: [raw_src] is [src[i]] and
    [next] is [src[i + 1]] when there is one. *)
Definition main_step (st : State) (out : list str) (raw_src : str)
    (next : option str) : State * list str :=
  let raw :=
    if in_code st || is_code_fence raw_src then raw_src
    else expandtabs 4 raw_src in
  if is_code_fence raw_src then
    (set_in_code (negb (in_code st)) st, out ++ [raw_src])
  else if in_code st then (st, out ++ [raw_src])
  else if is_blank raw then (set_prev_list None st, out ++ [[]])
  else
    let '(quote_prefix, body) := inline_rewrites st raw in
    if is_orphan_marker body then (st, out ++ [quote_blank quote_prefix])
    else
      let body := normalize_list_indent st quote_prefix body in
      if negb (nonempty quote_prefix) && re_heading (strip body)
      then emit_heading st out body next
      else emit_line st out quote_prefix body.

Fixpoint main_pass (st : State) (out : list str) (src : list str)
    : State * list str :=
  match src with
  | [] => (st, out)
  | raw_src :: rest =>
    let '(st', out') := main_step st out raw_src (head rest) in
    main_pass st' out' rest
  end.

(** ** Second pass (lines 628-653): a blank line after a list block *)

Fixpoint blank_after_lists (in_code : bool) (out : list str) : list str :=
  match out with
  | [] => []
  | ln :: rest =>
    if is_code_fence ln then ln :: blank_after_lists (negb in_code) rest
    else if in_code then ln :: blank_after_lists in_code rest
    else
      let extra :=
        if is_list ln then
          match drop_while is_blankish rest with
          | after :: _ =>
            if negb (is_list after) then
              match rest with
              | r :: _ =>
                if negb (is_blankish r)
                then [quote_blank (fst (split_blockquote_prefix ln))] else []
              | [] => []
              end
            else []
          | [] => []
          end
        else [] in
      ln :: extra ++ blank_after_lists in_code rest
  end.

(** ** Third pass (lines 655-672): blank runs *)

Fixpoint collapse_blank_runs (blank_run : nat) (out2 : list str) : list str :=
  match out2 with
  | [] => []
  | ln :: rest =>
    if is_blankish ln then
      let blank_run := S blank_run in
      if (1 <? blank_run)%nat then collapse_blank_runs blank_run rest
      else (if startswith [GT] (strip ln) then ln else [])
           :: collapse_blank_runs blank_run rest
    else ln :: collapse_blank_runs 0 rest
  end.

(** The two [while collapsed and is_blankish(...)] loops. *)
Definition trim_blankish (collapsed : list str) : list str :=
  drop_while_end is_blankish (drop_while is_blankish collapsed).

(** ** Fourth pass (lines 674-711): headings *)

Definition LPAREN_FW : char := 65288.
Definition RPAREN_FW : char := 65289.

Fixpoint finalize_headings (heading_counts : gmap (list N) nat)
    (have_h1 in_code : bool) (collapsed : list str) : list str :=
  match collapsed with
  | [] => []
  | ln :: rest =>
    if is_code_fence ln
    then ln :: finalize_headings heading_counts have_h1 (negb in_code) rest
    else if in_code
    then ln :: finalize_headings heading_counts have_h1 in_code rest
    else
      let '(q_prefix, body) := split_blockquote_prefix ln in
      let s := strip body in
      match re_heading_level s with
      | Some (k, e) =>
        if negb (nonempty q_prefix) then
          let s2 := strip_heading_trailing_punct s in
          let m2 := re_heading_level s2 in
          let level := match m2 with Some (k2, _) => k2 | None => k end in
          let text :=
            strip (match m2 with Some (_, e2) => drop e2 s2 | None => drop e s end) in
          let '(level, have_h1) :=
            if (level =? 1)%nat
            then (if have_h1 then (2%nat, have_h1) else (level, true))
            else (level, have_h1) in
          let n := (default 0%nat (heading_counts !! text) + 1)%nat in
          let heading_counts := <[text := n]> heading_counts in
          let text :=
            if (1 <? n)%nat
            then text ++ [LPAREN_FW] ++ str_of_nat n ++ [RPAREN_FW] else text in
          (repeat HASH level ++ [SP] ++ text)
          :: finalize_headings heading_counts have_h1 in_code rest
        else ln :: finalize_headings heading_counts have_h1 in_code rest
      | None => ln :: finalize_headings heading_counts have_h1 in_code rest
      end
  end.

(** ** [_normalize_markdownlint] *)

(** Lines 365-366. *)
Definition source_lines (md : str) : list str :=
  rstrip <$> split_nl (replace_cr (replace_crlf md)).

Definition normalize_lines (src : list str) : list str :=
  let out := snd (main_pass init_state [] src) in
  let out2 := blank_after_lists false out in
  let collapsed := trim_blankish (collapse_blank_runs 0 out2) in
  finalize_headings ∅ false false collapsed.

Definition normalize (md : str) : str :=
  rstrip (join_nl (normalize_lines (source_lines md))) ++ [NL].

End Engine.

(** * Vocabulary of the properties *)

(** An empty line, as a test on lists of lines. *)
Definition is_empty (l : list N) : bool := negb (nonempty l).

(** A line carries no trailing white space when [rstrip] leaves it alone. *)
Definition no_trailing_space (l : list N) : Prop := rstrip l = l.

(** A line without a line feed. *)
Definition nl_free (s : list N) : Prop := Forall (fun c => c <> NL) s.

(** A line the passes may hand over: no trailing white space, no line
    feed. *)
Definition line_ok (l : list N) : Prop := no_trailing_space l /\ nl_free l.

(** [normalize] returns [out] on [md], whatever the Unicode tables of the
    runtime are. *)
Definition emits (md out : list N) : Prop :=
  forall U : UnicodeTables, normalize U md = out.

(** ** Blank runs *)

(** The line the third pass puts in place of a run of blankish lines that
    starts with [ln] (line 664). *)
Definition kept_blank (ln : list N) : list N :=
  if startswith [GT] (strip ln) then ln else [].

Definition starts_unblankish (after : list (list N)) : Prop :=
  match after with
  | [] => True
  | a :: _ => is_blankish a = false
  end.

(** ** Fenced code *)

Definition unfenced (code : list (list N)) : Prop :=
  Forall (fun l => is_code_fence l = false) code.

(** ** Bare URLs *)









(** ** The score-breakdown heuristic *)

Section PromotionVocabulary.

Context (U : UnicodeTables).

(** The body an item leaves lines 495-548 with, once promoted. *)
Definition promoted_body (body : list N) (e : nat) : list N :=
  let rest := strip (drop e body) in
  let body1 := [DASH; SP] ++ lstrip (drop e body) in
  if looks_like_percent_item U rest
  then [DASH; SP] ++ lstrip (drop e body1) else body1.

End PromotionVocabulary.

(** The indentation stack after a list item at column 0 (lines 573-576). *)
Definition push_top_level (stack : list nat) : list nat :=
  match last (pop_deeper 0 stack) with
  | None => pop_deeper 0 stack ++ [0%nat]
  | Some top =>
    if (top <? 0)%nat then pop_deeper 0 stack ++ [0%nat] else pop_deeper 0 stack
  end.

(** ** Ordered numbering *)




Section RunVocabulary.

Context (U : UnicodeTables).





End RunVocabulary.



(** Each blankish line is followed by a line that is not, or is the last
    line. *)
Fixpoint blank_runs_single (ls : list (list N)) : bool :=
  match ls with
  | [] => true
  | l :: rest =>
    (if is_blankish l
     then match rest with
          | [] => true
          | x :: _ => negb (is_blankish x)
          end
     else true)
    && blank_runs_single rest
  end.

Definition head_unblankish (ls : list (list N)) : bool :=
  match ls with
  | [] => true
  | l :: _ => negb (is_blankish l)
  end.

Definition last_unblankish (ls : list (list N)) : bool :=
  match last ls with
  | None => true
  | Some l => negb (is_blankish l)
  end.

(** The lines left by the third pass: single blank runs, none in front,
    none at the end. *)
Definition tidy (ls : list (list N)) : Prop :=
  blank_runs_single ls = true /\ head_unblankish ls = true
  /\ last_unblankish ls = true.


(** * Helpers of [scripts/convert_toml_to_readme.py] *)

(** ** More of Python's strings *)

(** [s.replace(old, new)] for a pattern [old] of one character. *)
Definition replace_char (old : N) (new s : list N) : list N :=
  flat_map (fun c => if c =? old then new else [c]) s.

(** [s.split()]: the maximal runs of characters that are not white
    space. *)
Fixpoint split_ws (s : list N) : list (list N) :=
  match s with
  | [] => []
  | c :: t =>
    if is_space c then split_ws t
    else
      match t with
      | d :: _ =>
        if is_space d then [c] :: split_ws t
        else match split_ws t with
             | w :: ws => (c :: w) :: ws
             | [] => [[c]]
             end
      | [] => [[c]]
      end
  end.

(** The list with a separator between its members, as the loop of lines
    178-181 builds it. *)
Fixpoint interleave (sep : list N) (l : list (list N)) : list (list N) :=
  match l with
  | [] => []
  | q :: t =>
    match t with
    | [] => [q]
    | _ => q :: sep :: interleave sep t
    end
  end.

(** ** The data read from TOML and JSON *)

(** What [tomllib] and [json] hand over: [None] (from a failed [get]),
    strings, lists, tables with string keys (in the order of the file), and
    the scalars that are no strings (integers, floats, booleans, dates),
    each kept as the text [str()] prints for it. *)
#[local] Set Warnings "-register-all".

Inductive value :=
| VNone
| VStr (s : list N)
| VScalar (text : list N)
| VList (l : list value)
| VDict (d : list (list N * value)).

(** [d.get(key)] *)
Definition dict_get (d : list (list N * value)) (key : list N) : value :=
  match List.find (fun kv => str_eqb (fst kv) key) d with
  | Some kv => snd kv
  | None => VNone
  end.

Section Helpers.

(** [str(x)] for a list or a table [x]: Python's [repr] of the whole
    structure, taken as a parameter. *)
Context (str_of_container : value -> list N).

Context (U : UnicodeTables).

(** [_s] *)
Definition _s (v : value) : list N :=
  match v with
  | VNone => []
  | VStr s => s
  | VScalar text => text
  | _ => str_of_container v
  end.

(** [_md_escape_inline] *)
Definition _md_escape_inline (text : list N) : list N :=
  strip (replace_cr (replace_crlf text)).

(** [_as_author_list] *)
Definition _as_author_list (author : value) : list (list (list N * value)) :=
  match author with
  | VNone => []
  | VDict d => [d]
  | VList l =>
    flat_map (fun a => match a with VDict d => [d] | _ => [] end) l
  | _ => []
  end.

Definition is_anonymous (name : list N) : bool :=
  str_eqb name (py "佚名") || str_eqb name (py "匿名").

(** [_render_one_author_quote] *)
Definition _render_one_author_quote (author : list (list N * value))
    (indent : list N) : list N :=
  let name := strip (_s (dict_get author (py "name"))) in
  let link := strip (_s (dict_get author (py "link"))) in
  let date := strip (_s (dict_get author (py "date"))) in
  if is_anonymous name && negb (nonempty link) && negb (nonempty date) then []
  else
    let name := if negb (nonempty name) && nonempty date then py "佚名" else name in
    let name_part :=
      if nonempty link && nonempty name
      then py "[" ++ name ++ py "](" ++ link ++ py ")" else name in
    if negb (nonempty name_part) && negb (nonempty date) then []
    else
      let suffix := if nonempty name_part then name_part else [] in
      let suffix :=
        if nonempty date
        then (if nonempty suffix then suffix ++ py ", " else []) ++ date
        else suffix in
      indent ++ py "> 文 / " ++ suffix.

(** [_render_author_quote] *)
Definition _render_author_quote (author : value) (indent : list N) : list N :=
  let authors := _as_author_list author in
  match authors with
  | [] => []
  | _ =>
    let sigs :=
      List.filter nonempty
        (map (fun a => _render_one_author_quote a indent) authors) in
    match sigs with
    | [] => []
    | [q] => rstrip q
    | _ => rstrip (join_nl (interleave (indent ++ py ">") sigs))
    end
  end.

(** [_author_sig_key] *)
Definition _author_sig_key (author : value)
    : list (list N * list N * list N) :=
  map (fun a => (strip (_s (dict_get a (py "name"))),
                 strip (_s (dict_get a (py "link"))),
                 strip (_s (dict_get a (py "date")))))
      (_as_author_list author).

(** [_render_author_quote_line] *)
Definition _render_author_quote_line (author : value) (indent : list N) : list N :=
  let q := _render_author_quote author indent in
  if nonempty q then rstrip q else [].

(** [_render_author_quote_inline] *)
Definition _render_author_quote_inline (author : value) : list N :=
  let q := _render_author_quote_line author [] in
  if nonempty q then py "\n\n" ++ q else [].

(** [_encode_shields_component] *)
Definition _encode_shields_component (text : value) : list N :=
  let s := strip (_s text) in
  if negb (nonempty s) then []
  else
    let s := replace_char DASH (py "--") s in
    let s := replace_char PERCENT (py "%25") s in
    replace_char SP (py "%20") s.

(** [_render_shields_badge]; [None] stands for a keyword left at its
    default. *)
Definition _render_shields_badge (alt label : list N)
    (message color : option (list N)) : list N :=
  let base := py "https://img.shields.io/badge/" in
  let path :=
    match message, color with
    | None, Some color =>
      _encode_shields_component (VStr label) ++ py "-"
      ++ _encode_shields_component (VStr color)
    | _, _ =>
      let msg := match message with None => [] | Some m => m end in
      let col := match color with None => py "brightgreen" | Some c => c end in
      _encode_shields_component (VStr label) ++ py "-"
      ++ _encode_shields_component (VStr msg) ++ py "-"
      ++ _encode_shields_component (VStr col)
    end in
  py "![" ++ alt ++ py "](" ++ base ++ path ++ py ")".

(** The [re.fullmatch] of line 265, pattern "\d+(?:\.\d+)?%?": the digits,
    a fraction when a dot and digits follow, a percent sign when there is
    one, and nothing else. *)
Definition is_number_tail (tail : list N) : bool :=
  let ds := take_while (is_digit U) tail in
  nonempty ds
  && (let r := drop (length ds) tail in
      let r :=
        match r with
        | c :: r' =>
          if c =? 46 then
            let fs := take_while (is_digit U) r' in
            if nonempty fs then drop (length fs) r' else r
          else r
        | [] => r
        end in
      match r with
      | [] => true
      | [c] => c =? PERCENT
      | _ => false
      end).

(** [_split_label_value_tail] *)
Definition _split_label_value_tail (text : value) : list N * list N :=
  let s := strip (_s text) in
  if negb (nonempty s) then ([], [])
  else
    let parts := split_ws s in
    if (length parts <? 2)%nat then (s, [])
    else
      let tail := strip (List.last parts []) in
      if is_number_tail tail then
        let label := strip (concat (removelast parts)) in
        (if nonempty label then label else s, tail)
      else (s, []).

(** The class "[-*•]" of line 728. *)
Definition is_bullet (c : N) : bool := (c =? 45) || (c =? 42) || (c =? 8226).

(** [re.sub] of "^[-*•]\s+" by the empty string: the pattern is
    anchored, so at most the one match at the start is removed. *)
Definition strip_bullet (line : list N) : list N :=
  match line with
  | c :: t =>
    if is_bullet c && starts_with_space t then drop_while is_space t else line
  | [] => line
  end.

(** [_split_nonempty_lines] *)
Definition _split_nonempty_lines (text : value) : list (list N) :=
  let text := replace_cr (replace_crlf (_s text)) in
  flat_map (fun raw =>
              let line := strip raw in
              if negb (nonempty line) then [] else [strip_bullet line])
           (split_nl text).

End Helpers.

(** * The warning block of [scripts/readme_warning.py] *)

(** [s.find(sub)]: the lowest index where [sub] starts in [s]; [None]
    stands for the [-1] of a failed search. *)
Fixpoint str_find (sub s : list N) : option nat :=
  if startswith sub s then Some 0%nat
  else match s with
       | [] => None
       | _ :: t => option_map S (str_find sub t)
       end.

(** [s.lstrip("\n")] *)
Definition lstrip_nl (s : list N) : list N := drop_while (N.eqb NL) s.

Module readme_warning.

Definition WARNING_START : list N := py "<!-- RDME_TOML_AUTOGEN_WARNING_START -->".
Definition WARNING_END : list N := py "<!-- RDME_TOML_AUTOGEN_WARNING_END -->".

(** [_normalize_newlines] *)
Definition _normalize_newlines (text : list N) : list N :=
  replace_cr (replace_crlf text).

(** The text of the warning: the stripped message, or the default one when
    nothing is left of it (line 26). *)
Definition default_message : list N :=
  py "TOML 自动化格式化/生成 README 失败，请检查 readme.toml。".

Definition message_text (message : list N) : list N :=
  if nonempty (strip message) then strip message else default_message.

(** [_build_block] *)
Definition _build_block (message : list N) : list N :=
  let msg := message_text message in
  join_nl [WARNING_START; py "> [!WARNING]"; py "> " ++ msg; WARNING_END; []; []].

(** [_strip_block].  The first test makes the search for the start marker
    succeed; a missing end marker leaves the text as it is. *)
Definition _strip_block (text : list N) : list N :=
  if negb (contains WARNING_START text) then text
  else
    match str_find WARNING_START text, str_find WARNING_END text with
    | Some start, Some end_ =>
      let end_ := (end_ + length WARNING_END)%nat in
      let after := drop_while (N.eqb NL) (drop end_ text) in
      let before := take start text in
      let before :=
        match last before with
        | Some c => if c =? NL then take (length before - 1) before else before
        | None => before
        end in
      let out := if nonempty before then before ++ [NL] ++ after else after in
      lstrip_nl out
    | _, _ => text
    end.

(** [_ensure_block_at_top] *)
Definition _ensure_block_at_top (text message : list N) : list N :=
  let text := _strip_block text in
  let block := _build_block message in
  if negb (nonempty (strip text)) then block
  else block ++ lstrip_nl text.

End readme_warning.

(** * Vocabulary of the further properties *)

(** ** Headings of the output *)

(** The level of a line the fourth pass reads as a heading: no blockquote
    prefix, and the stripped body starts with one to six marks and white
    space (lines 689-691). *)
Definition top_heading_level (ln : list N) : option nat :=
  let '(q_prefix, body) := split_blockquote_prefix ln in
  match re_heading_level (strip body) with
  | Some (k, _) => if negb (nonempty q_prefix) then Some k else None
  | None => None
  end.

Definition is_top_h1 (ln : list N) : bool :=
  match top_heading_level ln with
  | Some 1%nat => true
  | _ => false
  end.

(** The level-1 headings among [ls], fenced code left out, the fences
    tracked the way the passes track them. *)
Fixpoint count_h1 (in_code : bool) (ls : list (list N)) : nat :=
  match ls with
  | [] => 0
  | ln :: rest =>
    if is_code_fence ln then count_h1 (negb in_code) rest
    else if in_code then count_h1 in_code rest
    else ((if is_top_h1 ln then 1 else 0) + count_h1 in_code rest)%nat
  end.

(** ** Bare URLs *)

(** The two characters the URL step writes. *)
Definition is_angle (c : N) : bool := (c =? LT) || (c =? GT).

(** A text without its angle brackets. *)
Definition without_angles (s : list N) : list N :=
  List.filter (fun c => negb (is_angle c)) s.

(** ** The list state of the main pass *)

(** The three tables agree: a bucket has a counter exactly when its last
    item was an ordered one, the counter is at least 1, and the width of
    the marker of such a bucket is on record. *)
Definition tables_coherent (st : State) : Prop :=
  forall indent : list N,
    (last_list_type st !! indent = Some OL <-> is_Some (ol_counters st !! indent))
    /\ (last_list_type st !! indent = Some OL ->
        is_Some (ol_marker_width st !! indent))
    /\ (forall n, ol_counters st !! indent = Some n -> (1 <= n)%nat).

Fixpoint strictly_increasing (l : list nat) : bool :=
  match l with
  | a :: t =>
    match t with
    | b :: _ => (a <? b)%nat && strictly_increasing t
    | [] => true
    end
  | [] => true
  end.

(** An indentation stack is empty, or it starts at column 0 and grows
    strictly towards its top. *)
Definition stack_from_zero (l : list nat) : bool :=
  match l with
  | [] => true
  | a :: _ => (a =? 0)%nat && strictly_increasing l
  end.

(** ** Blank documents *)

(** Lines that are all empty. *)
Definition all_empty (ls : list (list N)) : Prop := Forall (fun l => l = []) ls.

(** ** The characters the engine writes *)

(** The characters the passes put into the text on their own: the line
    feed, the space, [#], [-], the two angle brackets, the ASCII digits and
    the two full-width parentheses. *)
Definition is_written (c : N) : bool :=
  (c =? NL) || (c =? SP) || (c =? HASH) || (c =? DASH) || (c =? LT) || (c =? GT)
  || ((48 <=? c) && (c <=? 57)) || (c =? LPAREN_FW) || (c =? RPAREN_FW).

(** ** Visible characters *)

Definition is_visible (c : N) : bool := negb (is_space c).

(** A text with its white space taken out. *)
Definition visible_part (s : list N) : list N := List.filter is_visible s.

(** A line as a caller of [_split_nonempty_lines] may put it after a list
    marker: something is on it, no white space at either end, no line
    break inside. *)
Definition clean_line (l : list N) : Prop :=
  l <> [] /\ lstrip l = l /\ rstrip l = l /\ ~ In NL l /\ ~ In CR l.

(** ** Badges *)

(** What the three replacements of [_encode_shields_component] make of one
    character. *)
Definition shields_code (c : N) : list N :=
  if c =? DASH then py "--"
  else if c =? PERCENT then py "%25"
  else if c =? SP then py "%20"
  else [c].

(** * Canonical documents *)






(** ** The list state the canonical form depends on *)







Section CanonicalVocabulary.

Context (U : UnicodeTables).









End CanonicalVocabulary.

(** * Properties *)

(** ** Prefixes and suffixes cut by a predicate *)

Section Cuts.

Context {A : Type} (p : A -> bool).

Lemma take_drop_while (s : list A) : take_while p s ++ drop_while p s = s.
Proof.
  induction s as [|c t IH]; simpl; [reflexivity|].
  destruct (p c); simpl; [f_equal; exact IH|reflexivity].
Qed.

Lemma drop_length_take_while (s : list A) :
  drop (length (take_while p s)) s = drop_while p s.
Proof.
  induction s as [|c t IH]; simpl; [reflexivity|].
  destruct (p c); simpl; [exact IH|reflexivity].
Qed.

Lemma forallb_take_while (s : list A) : forallb p (take_while p s) = true.
Proof.
  induction s as [|c t IH]; simpl; [reflexivity|].
  destruct (p c) eqn:E; simpl; [rewrite E; exact IH|reflexivity].
Qed.

Lemma drop_while_head (s : list A) c t : drop_while p s = c :: t -> p c = false.
Proof.
  induction s as [|a r IH]; simpl; [discriminate|].
  destruct (p a) eqn:E; [exact IH|]. intros [= <- <-]. exact E.
Qed.

Lemma take_while_all (s : list A) : forallb p s = true -> take_while p s = s.
Proof.
  induction s as [|c t IH]; simpl; [reflexivity|].
  intros H. apply andb_true_iff in H as [-> H]. f_equal. exact (IH H).
Qed.

Lemma drop_while_all (s : list A) : forallb p s = true -> drop_while p s = [].
Proof.
  induction s as [|c t IH]; simpl; [reflexivity|].
  intros H. apply andb_true_iff in H as [-> H]. exact (IH H).
Qed.

Lemma drop_while_fixed (s : list A) :
  match s with c :: _ => p c = false | [] => True end -> drop_while p s = s.
Proof. destruct s as [|c t]; simpl; [reflexivity|]. intros ->. reflexivity. Qed.


Lemma drop_while_app (s t : list A) :
  forallb p s = true -> drop_while p (s ++ t) = drop_while p t.
Proof.
  induction s as [|c r IH]; simpl; [reflexivity|].
  intros H. apply andb_true_iff in H as [-> H]. exact (IH H).
Qed.

Lemma last_drop_while (s : list A) c :
  last (drop_while p s) = Some c -> last s = Some c.
Proof.
  induction s as [|a t IH]; simpl; [discriminate|].
  destruct (p a); [|exact id].
  intros H. specialize (IH H). rewrite last_cons, IH. reflexivity.
Qed.

Lemma drop_while_end_nil_iff (s : list A) :
  drop_while_end p s = [] <-> forallb p s = true.
Proof.
  induction s as [|c t IH]; simpl; [tauto|].
  destruct (drop_while_end p t) eqn:E.
  - destruct (p c); simpl.
    + split; [intros _; apply IH; reflexivity | reflexivity].
    + split; discriminate.
  - split; [discriminate|]. intros H. apply andb_true_iff in H as [_ H].
    apply IH in H. discriminate.
Qed.

Lemma drop_while_end_last (s : list A) c :
  last (drop_while_end p s) = Some c -> p c = false.
Proof.
  induction s as [|a t IH]; simpl; [discriminate|].
  destruct (drop_while_end p t) as [|b r] eqn:E.
  - destruct (p a) eqn:Pa; simpl; [discriminate|]. intros [= <-]. exact Pa.
  - intros H. apply IH. rewrite last_cons in H.
    destruct (last (b :: r)) eqn:L; [exact H|].
    apply last_None in L. discriminate.
Qed.

Lemma drop_while_end_fixed (s : list A) :
  (forall c, last s = Some c -> p c = false) -> drop_while_end p s = s.
Proof.
  induction s as [|a t IH]; simpl; [reflexivity|]. intros H.
  destruct t as [|b r].
  - simpl. rewrite (H a eq_refl). reflexivity.
  - rewrite IH; [reflexivity|]. intros c Hc. apply H.
    rewrite last_cons, Hc. reflexivity.
Qed.

Lemma drop_while_end_idem (s : list A) :
  drop_while_end p (drop_while_end p s) = drop_while_end p s.
Proof. apply drop_while_end_fixed. intros c. apply drop_while_end_last. Qed.

Lemma drop_while_end_split (s : list A) :
  exists t, s = drop_while_end p s ++ t /\ forallb p t = true.
Proof.
  induction s as [|a t IH]; simpl; [exists []; auto|].
  destruct IH as (u & Hu & Pu).
  destruct (drop_while_end p t) as [|b r] eqn:E.
  - simpl in Hu. subst u. destruct (p a) eqn:Pa.
    + exists (a :: t). split; [reflexivity|]. simpl. rewrite Pa. exact Pu.
    + exists t. split; [reflexivity|]. exact Pu.
  - exists u. split; [|exact Pu]. simpl. f_equal. exact Hu.
Qed.

Lemma drop_while_end_app (s t : list A) :
  drop_while_end p (s ++ t) =
  match drop_while_end p t with
  | [] => drop_while_end p s
  | r => s ++ r
  end.
Proof.
  induction s as [|a r IH]; simpl.
  - destruct (drop_while_end p t); reflexivity.
  - rewrite IH. destruct (drop_while_end p t) as [|b u]; [reflexivity|].
    destruct (r ++ b :: u) eqn:E; [|reflexivity].
    apply app_eq_nil in E as [_ E]. discriminate.
Qed.

Lemma Forall_drop_while_end (P : A -> Prop) (s : list A) :
  Forall P s -> Forall P (drop_while_end p s).
Proof.
  intros H. destruct (drop_while_end_split s) as (t & E & _).
  rewrite E in H. apply Forall_app in H. tauto.
Qed.

Lemma Forall_drop_while (P : A -> Prop) (s : list A) :
  Forall P s -> Forall P (drop_while p s).
Proof.
  intros H. rewrite <- (take_drop_while s) in H. apply Forall_app in H. tauto.
Qed.

Lemma Forall_take_while (P : A -> Prop) (s : list A) :
  Forall P s -> Forall P (take_while p s).
Proof.
  intros H. rewrite <- (take_drop_while s) in H. apply Forall_app in H. tauto.
Qed.

End Cuts.

(** ** Stripping *)

Lemma rstrip_last (s : list N) c : last (rstrip s) = Some c -> is_space c = false.
Proof. apply drop_while_end_last. Qed.

Lemma rstrip_no_trailing_space (s : list N) : no_trailing_space (rstrip s).
Proof. apply drop_while_end_idem. Qed.

Lemma no_trailing_space_last (s : list N) :
  no_trailing_space s <-> (forall c, last s = Some c -> is_space c = false).
Proof.
  split.
  - intros H c Hc. rewrite <- H in Hc. exact (rstrip_last _ _ Hc).
  - apply drop_while_end_fixed.
Qed.

Lemma no_trailing_space_nil : no_trailing_space [].
Proof. reflexivity. Qed.

Lemma no_trailing_space_drop_while p (s : list N) :
  no_trailing_space s -> no_trailing_space (drop_while p s).
Proof.
  rewrite !no_trailing_space_last. intros H c Hc.
  apply H. exact (last_drop_while p s c Hc).
Qed.

Lemma strip_no_trailing_space (s : list N) : no_trailing_space (strip s).
Proof. apply no_trailing_space_drop_while, rstrip_no_trailing_space. Qed.

Lemma no_trailing_space_app (a t : list N) :
  t <> [] -> no_trailing_space t -> no_trailing_space (a ++ t).
Proof.
  rewrite !no_trailing_space_last. intros Ht H c Hc.
  apply H. rewrite last_app in Hc. destruct (last t) eqn:E; [exact Hc|].
  apply last_None in E. contradiction.
Qed.

Lemma no_trailing_space_snoc (a : list N) c :
  is_space c = false -> no_trailing_space (a ++ [c]).
Proof.
  intros H. apply no_trailing_space_last. intros d Hd.
  rewrite last_snoc in Hd. injection Hd as <-. exact H.
Qed.

Create HintDb nlf discriminated.

Lemma nl_free_nil : nl_free [].
Proof. constructor. Qed.

Lemma nl_free_cons c s : c <> NL -> nl_free s -> nl_free (c :: s).
Proof. constructor; assumption. Qed.

Lemma nl_free_app s t : nl_free s -> nl_free t -> nl_free (s ++ t).
Proof. intros. apply Forall_app; split; assumption. Qed.

Lemma nl_free_app_inv s t : nl_free (s ++ t) -> nl_free s /\ nl_free t.
Proof. intros H. apply Forall_app in H. exact H. Qed.

Lemma nl_free_repeat c n : c <> NL -> nl_free (repeat c n).
Proof. intros H. induction n; simpl; constructor; assumption. Qed.

Lemma nl_free_take n s : nl_free s -> nl_free (take n s).
Proof. apply Forall_take. Qed.

Lemma nl_free_drop n s : nl_free s -> nl_free (drop n s).
Proof. apply Forall_drop. Qed.

Lemma nl_free_take_while p s : nl_free s -> nl_free (take_while p s).
Proof. apply Forall_take_while. Qed.

Lemma nl_free_drop_while p s : nl_free s -> nl_free (drop_while p s).
Proof. apply Forall_drop_while. Qed.

Lemma nl_free_rstrip_by p s : nl_free s -> nl_free (rstrip_by p s).
Proof. apply Forall_drop_while_end. Qed.

Lemma nl_free_rstrip s : nl_free s -> nl_free (rstrip s).
Proof. apply nl_free_rstrip_by. Qed.

Lemma nl_free_lstrip s : nl_free s -> nl_free (lstrip s).
Proof. apply nl_free_drop_while. Qed.

Lemma nl_free_strip s : nl_free s -> nl_free (strip s).
Proof. intros. apply nl_free_lstrip, nl_free_rstrip. assumption. Qed.

#[local] Hint Resolve nl_free_nil nl_free_cons nl_free_app nl_free_repeat
  nl_free_take nl_free_drop nl_free_take_while nl_free_drop_while
  nl_free_rstrip_by nl_free_rstrip nl_free_lstrip nl_free_strip : nlf.

Lemma SP_not_nl : SP <> NL. Proof. discriminate. Qed.
Lemma HASH_not_nl : HASH <> NL. Proof. discriminate. Qed.
Lemma DASH_not_nl : DASH <> NL. Proof. discriminate. Qed.
Lemma LT_not_nl : LT <> NL. Proof. discriminate. Qed.
Lemma GT_not_nl : GT <> NL. Proof. discriminate. Qed.
Lemma LPAREN_FW_not_nl : LPAREN_FW <> NL. Proof. discriminate. Qed.
Lemma RPAREN_FW_not_nl : RPAREN_FW <> NL. Proof. discriminate. Qed.

#[local] Hint Resolve SP_not_nl HASH_not_nl DASH_not_nl LT_not_nl GT_not_nl
  LPAREN_FW_not_nl RPAREN_FW_not_nl : nlf.

Lemma nl_free_split_nl (s : list N) : Forall nl_free (split_nl s).
Proof.
  induction s as [|c t IH]; simpl; [repeat constructor|].
  destruct (N.eqb_spec c NL) as [->|Hc].
  - constructor; [constructor|exact IH].
  - destruct (split_nl t) as [|l ls]; [repeat constructor; assumption|].
    inversion IH; subst. constructor; [constructor; assumption|assumption].
Qed.

Lemma nl_free_expandtabs_from n col s :
  nl_free s -> nl_free (expandtabs_from n col s).
Proof.
  intros H. revert col. induction H as [|c t Hc Ht IH]; intros col; simpl; [constructor|].
  destruct (c =? TAB).
  - destruct n; [apply IH|]. apply nl_free_app; [apply nl_free_repeat; discriminate|apply IH].
  - destruct ((c =? NL) || (c =? CR)); (constructor; [assumption|apply IH]).
Qed.

Lemma nl_free_digits_of_uint d : nl_free (digits_of_uint d).
Proof. induction d; simpl; constructor; try assumption; discriminate. Qed.

Lemma nl_free_str_of_nat n : nl_free (str_of_nat n).
Proof. apply nl_free_digits_of_uint. Qed.

Lemma nl_free_split_blockquote_prefix ln :
  nl_free ln ->
  nl_free (fst (split_blockquote_prefix ln)) /\ nl_free (snd (split_blockquote_prefix ln)).
Proof.
  intros H. unfold split_blockquote_prefix.
  destruct (drop_while is_space ln) as [|c r] eqn:E; simpl; [split; auto with nlf|].
  destruct (c =? GT); simpl; [|split; auto with nlf].
  assert (nl_free (c :: r)) as Hcr by (rewrite <- E; auto with nlf).
  inversion Hcr; subst.
  split; auto 6 with nlf.
Qed.

Lemma nl_free_re_sub_bare_url_from fuel prev s :
  nl_free s -> nl_free (re_sub_bare_url_from fuel prev s).
Proof.
  revert prev s. induction fuel as [|f IH]; intros prev s H; simpl; [assumption|].
  destruct s as [|c t]; [constructor|].
  destruct (if url_lookbehind prev then bare_url_match (c :: t) else None) as [n|].
  - constructor; [discriminate|]. apply nl_free_app; [auto with nlf|].
    constructor; [discriminate|]. apply IH. auto with nlf.
  - inversion H; subst. constructor; [assumption|]. apply IH. assumption.
Qed.

Lemma nl_free_wrap_bare_urls body : nl_free body -> nl_free (wrap_bare_urls body).
Proof.
  intros H. unfold wrap_bare_urls.
  destruct (_ || _); [apply nl_free_re_sub_bare_url_from|]; assumption.
Qed.

Lemma nl_free_strip_heading_trailing_punct s :
  nl_free s -> nl_free (strip_heading_trailing_punct s).
Proof.
  intros H. unfold strip_heading_trailing_punct.
  destruct (re_heading_level (rstrip s)) as [[k e]|]; [|assumption].
  apply nl_free_rstrip. apply nl_free_app; [auto with nlf|].
  apply nl_free_app; auto 8 with nlf.
Qed.

#[local] Hint Resolve nl_free_expandtabs_from nl_free_str_of_nat
  nl_free_re_sub_bare_url_from nl_free_wrap_bare_urls
  nl_free_strip_heading_trailing_punct : nlf.

(** ** Splitting and joining lines *)

Lemma split_nl_nl_free (a : list N) : nl_free a -> split_nl a = [a].
Proof.
  induction 1 as [|c t Hc Ht IH]; simpl; [reflexivity|].
  apply N.eqb_neq in Hc. rewrite Hc, IH. reflexivity.
Qed.

Lemma split_nl_app_nl (a b : list N) :
  nl_free a -> split_nl (a ++ NL :: b) = a :: split_nl b.
Proof.
  induction 1 as [|c t Hc Ht IH]; simpl; [reflexivity|].
  apply N.eqb_neq in Hc. rewrite Hc, IH. reflexivity.
Qed.

Lemma split_nl_join_nl (ls : list (list N)) :
  ls <> [] -> Forall nl_free ls -> split_nl (join_nl ls) = ls.
Proof.
  induction ls as [|l ls IH]; [congruence|]. intros _ H.
  inversion H as [|? ? Hl Hls]; subst.
  destruct ls as [|l' ls'].
  - simpl. apply split_nl_nl_free. exact Hl.
  - change (join_nl (l :: l' :: ls')) with (l ++ NL :: join_nl (l' :: ls')).
    rewrite split_nl_app_nl by exact Hl. f_equal. apply IH; [discriminate|exact Hls].
Qed.

Lemma split_nl_not_nil (s : list N) : split_nl s <> [].
Proof.
  induction s as [|c t IH]; simpl; [discriminate|].
  destruct (c =? NL); [discriminate|]. destruct (split_nl t); discriminate.
Qed.

Lemma split_nl_snoc_nl (s : list N) : split_nl (s ++ [NL]) = split_nl s ++ [[]].
Proof.
  induction s as [|c t IH]; simpl; [reflexivity|].
  destruct (c =? NL); [rewrite IH; reflexivity|].
  rewrite IH. pose proof (split_nl_not_nil t).
  destruct (split_nl t); [contradiction|reflexivity].
Qed.

Lemma join_nl_nil_inv (ls : list (list N)) :
  join_nl ls = [] -> ls = [] \/ ls = [[]].
Proof.
  destruct ls as [|l [|l' ls]]; simpl.
  - auto.
  - intros ->. auto.
  - intros H. apply app_eq_nil in H as [_ H]. discriminate.
Qed.

(** [rstrip] of the joined text drops the empty lines at the end, when no
    line carries trailing white space. *)
Lemma rstrip_join_nl (ls : list (list N)) :
  Forall no_trailing_space ls ->
  rstrip (join_nl ls) = join_nl (drop_while_end is_empty ls).
Proof.
  induction ls as [|l ls IH]; [reflexivity|]. intros H.
  inversion H as [|? ? Hl Hls]; subst. specialize (IH Hls).
  unfold no_trailing_space, rstrip, rstrip_by in *.
  destruct ls as [|l' ls'].
  - simpl. rewrite Hl. destruct l; reflexivity.
  - change (join_nl (l :: l' :: ls')) with (l ++ NL :: join_nl (l' :: ls')).
    rewrite drop_while_end_app.
    change (drop_while_end is_space (NL :: join_nl (l' :: ls')))
      with (match drop_while_end is_space (join_nl (l' :: ls')) with
            | [] => [] | r => NL :: r end).
    rewrite IH.
    change (drop_while_end is_empty (l :: l' :: ls'))
      with (match drop_while_end is_empty (l' :: ls') with
            | [] => if is_empty l then [] else [l]
            | r => l :: r end).
    destruct (drop_while_end is_empty (l' :: ls')) as [|m ms] eqn:E.
    + simpl. rewrite Hl. destruct l; reflexivity.
    + destruct (join_nl (m :: ms)) eqn:J.
      * apply join_nl_nil_inv in J as [J|J]; [discriminate|].
        injection J as -> ->.
        pose proof (drop_while_end_last is_empty (l' :: ls') []) as L.
        rewrite E in L. specialize (L eq_refl). discriminate.
      * rewrite <- J. reflexivity.
Qed.

Lemma line_ok_nil : line_ok [].
Proof. split; [reflexivity|constructor]. Qed.

Lemma line_ok_rstrip (s : list N) : nl_free s -> line_ok (rstrip s).
Proof. intros H. split; [apply rstrip_no_trailing_space|apply nl_free_rstrip, H]. Qed.

Lemma line_ok_quote_blank (q : list N) : nl_free q -> line_ok (quote_blank q).
Proof.
  intros H. unfold quote_blank. destruct (nonempty q);
    [apply line_ok_rstrip, H|apply line_ok_nil].
Qed.

Lemma Forall_snoc {A} (P : A -> Prop) (l : list A) (x : A) :
  Forall P l -> P x -> Forall P (l ++ [x]).
Proof. intros. apply Forall_app. split; [assumption|constructor; [assumption|constructor]]. Qed.

(** The lines of the text that [normalize] builds from final lines. *)
Lemma split_nl_rstrip_join_nl (ls : list (list N)) :
  Forall line_ok ls ->
  split_nl (rstrip (join_nl ls) ++ [NL]) =
  match drop_while_end is_empty ls with
  | [] => [[]; []]
  | r => r ++ [[]]
  end.
Proof.
  intros H. rewrite split_nl_snoc_nl, rstrip_join_nl.
  - destruct (drop_while_end is_empty ls) as [|m ms] eqn:E; [reflexivity|].
    rewrite split_nl_join_nl; [reflexivity|discriminate|].
    rewrite <- E. apply Forall_drop_while_end.
    eapply Forall_impl; [exact H|]. intros l [_ Hl]. exact Hl.
  - eapply Forall_impl; [exact H|]. intros l [Hl _]. exact Hl.
Qed.

(** ** What the matchers return *)

Lemma drop_app_len {A} (a b : list A) k : k = length a -> drop k (a ++ b) = b.
Proof. intros ->. apply drop_app_length. Qed.

Section Matchers.

Context (U : UnicodeTables).

Lemma re_marker_inv mark s indent e :
  re_marker mark s = Some (indent, e) ->
  exists c ws tail,
    s = indent ++ c :: ws ++ tail
    /\ indent = take_while is_space s
    /\ mark c = true
    /\ ws <> [] /\ forallb is_space ws = true
    /\ drop_while is_space tail = tail
    /\ e = (length indent + 1 + length ws)%nat
    /\ drop e s = tail.
Proof.
  unfold re_marker. rewrite drop_length_take_while.
  destruct (drop_while is_space s) as [|c t] eqn:E; [discriminate|].
  destruct (mark c) eqn:Mc; simpl; [|discriminate].
  destruct (take_while is_space t) as [|w ws] eqn:W; simpl; [discriminate|].
  intros [= <- <-].
  exists c, (w :: ws), (drop_while is_space t).
  assert (s = take_while is_space s ++ c :: (w :: ws) ++ drop_while is_space t) as Hs.
  { rewrite <- W, take_drop_while, <- E, take_drop_while. reflexivity. }
  repeat split; try assumption; try discriminate.
  - rewrite <- W. apply forallb_take_while.
  - apply drop_while_fixed. destruct (drop_while is_space t) eqn:D; [exact I|].
    exact (drop_while_head _ _ _ _ D).
  - etransitivity; [eapply (f_equal (drop _)); exact Hs|].
    change (take_while is_space s ++ c :: (w :: ws) ++ drop_while is_space t)
      with (take_while is_space s ++ [c] ++ (w :: ws) ++ drop_while is_space t).
    rewrite !app_assoc. apply drop_app_len. rewrite !length_app. simpl. lia.
Qed.

Lemma ol_marker_at_inv r num d e :
  ol_marker_at U r = Some (num, d, e) ->
  exists ws tail,
    r = num ++ d :: ws ++ tail
    /\ num = take_while (is_digit U) r
    /\ num <> []
    /\ is_ol_delim d = true
    /\ ws <> [] /\ forallb is_space ws = true
    /\ drop_while is_space tail = tail
    /\ e = (length num + 1 + length ws)%nat
    /\ drop e r = tail.
Proof.
  unfold ol_marker_at.
  destruct (nonempty (take_while (is_digit U) r)) eqn:Hn; [|discriminate].
  rewrite drop_length_take_while.
  destruct (drop_while (is_digit U) r) as [|c t] eqn:E; [discriminate|].
  destruct (is_ol_delim c) eqn:Dc; simpl; [|discriminate].
  destruct (take_while is_space t) as [|w ws] eqn:W; simpl; [discriminate|].
  intros [= <- <- <-].
  exists (w :: ws), (drop_while is_space t).
  assert (r = take_while (is_digit U) r ++ c :: (w :: ws) ++ drop_while is_space t) as Hr.
  { rewrite <- W, take_drop_while, <- E, take_drop_while. reflexivity. }
  repeat split; try assumption; try discriminate.
  - intros Hnil. rewrite Hnil in Hn. discriminate.
  - rewrite <- W. apply forallb_take_while.
  - apply drop_while_fixed. destruct (drop_while is_space t) eqn:D; [exact I|].
    exact (drop_while_head _ _ _ _ D).
  - etransitivity; [eapply (f_equal (drop _)); exact Hr|].
    change (take_while (is_digit U) r ++ c :: (w :: ws) ++ drop_while is_space t)
      with (take_while (is_digit U) r ++ [c] ++ (w :: ws) ++ drop_while is_space t).
    rewrite !app_assoc. apply drop_app_len. rewrite !length_app. simpl. lia.
Qed.

Lemma re_ol_marker_inv s indent num d e :
  re_ol_marker U s = Some (indent, num, d, e) ->
  exists ws tail,
    s = indent ++ num ++ d :: ws ++ tail
    /\ indent = take_while is_space s
    /\ num = take_while (is_digit U) (drop_while is_space s)
    /\ num <> []
    /\ is_ol_delim d = true
    /\ ws <> [] /\ forallb is_space ws = true
    /\ drop_while is_space tail = tail
    /\ e = (length indent + length num + 1 + length ws)%nat
    /\ drop e s = tail.
Proof.
  unfold re_ol_marker. rewrite drop_length_take_while.
  destruct (ol_marker_at U (drop_while is_space s)) as [[[n c] k]|] eqn:E;
    [|discriminate].
  intros [= <- <- <- <-].
  apply ol_marker_at_inv in E as (ws & tail & Hr & Hn & Hn' & Hd & Hw & Hw' & Ht & He & Hdr).
  exists ws, tail. repeat split; try assumption.
  - rewrite <- Hr. symmetry. apply take_drop_while.
  - lia.
  - rewrite <- drop_drop, drop_length_take_while. exact Hdr.
Qed.

End Matchers.

(** ** Every pass hands over lines without trailing white space *)

Section LineInvariant.

Context (U : UnicodeTables).

Lemma is_ol_delim_not_nl d : is_ol_delim d = true -> d <> NL.
Proof. intros H ->. discriminate. Qed.

Ltac solve_nl_free :=
  repeat first
    [ assumption | apply nl_free_nil | apply nl_free_app | apply nl_free_cons
    | apply nl_free_repeat | apply nl_free_str_of_nat | apply nl_free_lstrip
    | apply nl_free_strip | apply nl_free_rstrip | apply nl_free_drop
    | apply nl_free_take | apply nl_free_take_while | apply nl_free_drop_while
    | apply nl_free_strip_heading_trailing_punct | discriminate ].

Lemma nl_free_marker_rewrite (pre body : list N) e :
  nl_free pre -> nl_free body ->
  nl_free (pre ++ [DASH; SP] ++ lstrip (drop e body)).
Proof.
  intros Hp Hb. solve_nl_free.
Qed.

Lemma nl_free_re_marker mark s indent e :
  re_marker mark s = Some (indent, e) -> nl_free s -> nl_free indent.
Proof.
  intros H Hs. apply re_marker_inv in H as (c & ws & tail & _ & -> & _).
  auto with nlf.
Qed.

Lemma nl_free_re_ol_marker s indent num d e :
  re_ol_marker U s = Some (indent, num, d, e) -> nl_free s ->
  nl_free indent /\ nl_free num /\ d <> NL.
Proof.
  intros H Hs.
  apply re_ol_marker_inv in H as (ws & tail & _ & -> & -> & _ & Hd & _).
  repeat split; auto using is_ol_delim_not_nl with nlf.
Qed.

Lemma nl_free_promote_bold_only st q body :
  nl_free body -> nl_free (promote_bold_only U st q body).
Proof.
  intros H. unfold promote_bold_only.
  destruct (nonempty q); [exact H|].
  destruct (re_bold_only_text body) as [t|] eqn:E; [|exact H].
  destruct (_ && _); [|exact H].
  unfold re_bold_only_text in E.
  destruct (_ && _) in E; [|discriminate]. injection E as <-.
  solve_nl_free.
Qed.

Lemma nl_free_normalize_ul_marker body :
  nl_free body -> nl_free (normalize_ul_marker body).
Proof.
  intros H. unfold normalize_ul_marker.
  assert (nl_free (match re_ul_marker body with
                   | Some (indent, e) => indent ++ [DASH; SP] ++ lstrip (drop e body)
                   | None => body end)) as H1.
  { destruct (re_ul_marker body) as [[i e]|] eqn:E; [|exact H].
    apply nl_free_marker_rewrite; [|exact H].
    exact (nl_free_re_marker _ _ _ _ E H). }
  destruct (re_ul_dash _) as [[i e]|] eqn:E; [|exact H1].
  apply nl_free_marker_rewrite; [|exact H1].
  exact (nl_free_re_marker _ _ _ _ E H1).
Qed.

Lemma nl_free_normalize_ul_indent st q body indent e :
  nl_free body -> nl_free (normalize_ul_indent U st q body indent e).
Proof.
  intros H. unfold normalize_ul_indent.
  repeat match goal with
  | |- context [if ?b then _ else _] => destruct b
  | |- context [match ?o with Some _ => _ | None => _ end] => destruct o as [[? ?]|]
  | |- nl_free (_ ++ [DASH; SP] ++ lstrip (drop _ _)) => apply nl_free_marker_rewrite
  | |- nl_free (repeat SP _) => apply nl_free_repeat; discriminate
  | |- nl_free [] => constructor
  | |- nl_free ([DASH; SP] ++ lstrip (drop _ _)) => apply (nl_free_marker_rewrite [])
  | |- _ => assumption
  end.
Qed.

Lemma nl_free_normalize_list_indent st q body :
  nl_free body -> nl_free (normalize_list_indent U st q body).
Proof.
  intros H. unfold normalize_list_indent.
  destruct (re_ol_marker U body) as [[[[i n] d] e]|] eqn:E.
  - destruct (nl_free_re_ol_marker _ _ _ _ _ E H) as (Hi & Hn & Hd).
    destruct (_ <=? _)%nat; [solve_nl_free|].
    destruct (_ <=? _)%nat; solve_nl_free.
  - destruct (re_ul_dash body) as [[i e]|]; [|exact H].
    apply nl_free_normalize_ul_indent, H.
Qed.

Lemma nl_free_inline_rewrites st raw :
  nl_free raw ->
  nl_free (fst (inline_rewrites U st raw)) /\ nl_free (snd (inline_rewrites U st raw)).
Proof.
  intros H. unfold inline_rewrites.
  destruct (nl_free_split_blockquote_prefix raw H) as [Hq Hb].
  destruct (split_blockquote_prefix raw) as [q b]. simpl in *.
  split; [exact Hq|].
  apply nl_free_normalize_ul_marker, nl_free_promote_bold_only,
    nl_free_wrap_bare_urls, Hb.
Qed.

Lemma nl_free_track_indent_stack st body :
  nl_free body -> nl_free (snd (track_indent_stack U st body)).
Proof.
  intros H. unfold track_indent_stack.
  destruct (re_list U body).
  - destruct (_ && _); simpl; solve_nl_free.
  - destruct (last _); [destruct (_ <? _)%nat|]; exact H.
Qed.

Lemma nl_free_renumber st body :
  nl_free body -> nl_free (snd (renumber U st body)).
Proof.
  intros H. unfold renumber.
  destruct (re_ol_marker U body) as [[[[i n] d] e]|] eqn:E.
  - destruct (nl_free_re_ol_marker _ _ _ _ _ E H) as (Hi & Hn & Hd). simpl.
    solve_nl_free.
  - destruct (re_list U body); exact H.
Qed.

Lemma strip_heading_trailing_punct_ok s :
  no_trailing_space s -> no_trailing_space (strip_heading_trailing_punct s).
Proof.
  intros H. unfold strip_heading_trailing_punct.
  destruct (re_heading_level (rstrip s)) as [[k e]|];
    [apply rstrip_no_trailing_space|exact H].
Qed.

Lemma emit_heading_ok st out body next :
  Forall line_ok out -> nl_free body ->
  Forall line_ok (snd (emit_heading st out body next)).
Proof.
  intros Ho Hb. unfold emit_heading.
  set (out1 := match last out with
               | Some l => if negb (is_blankish l) then out ++ [[]] else out
               | None => out end).
  assert (Forall line_ok out1) as H1.
  { subst out1. destruct (last out); [destruct (negb _)|]; auto using Forall_snoc, line_ok_nil. }
  assert (line_ok (strip_heading_trailing_punct (strip body))) as Hh.
  { split; [|solve_nl_free].
    apply strip_heading_trailing_punct_ok, strip_no_trailing_space. }
  destruct next as [nxt|]; simpl; [destruct (negb (is_blank nxt))|];
    auto using Forall_snoc, line_ok_nil.
Qed.

Lemma emit_line_ok st out q body :
  Forall line_ok out -> nl_free q -> nl_free body ->
  Forall line_ok (snd (emit_line U st out q body)).
Proof.
  intros Ho Hq Hb. unfold emit_line.
  pose proof (nl_free_track_indent_stack st body Hb) as H1.
  destruct (track_indent_stack U st body) as [st1 b1]. simpl in H1.
  pose proof (nl_free_renumber st1 b1 H1) as H2.
  destruct (renumber U st1 b1) as [st2 b2]. simpl in H2.
  assert (line_ok (rstrip (q ++ b2))) as Hl by (apply line_ok_rstrip; solve_nl_free).
  destruct (re_list U b2); simpl; [|auto using Forall_snoc].
  apply Forall_snoc; [|exact Hl].
  destruct (last out); [destruct (_ && _)|];
    auto using Forall_snoc, line_ok_quote_blank.
Qed.

Lemma main_step_ok st out raw_src next :
  Forall line_ok out -> line_ok raw_src ->
  Forall line_ok (snd (main_step U st out raw_src next)).
Proof.
  intros Ho Hr. unfold main_step.
  destruct (is_code_fence raw_src); [simpl; auto using Forall_snoc|].
  destruct (in_code st); [simpl; auto using Forall_snoc|].
  simpl orb. cbv iota.
  destruct (is_blank _); [simpl; auto using Forall_snoc, line_ok_nil|].
  assert (nl_free (expandtabs 4 raw_src)) as He
    by (apply nl_free_expandtabs_from, Hr).
  destruct (nl_free_inline_rewrites st _ He) as [Hq Hb].
  destruct (inline_rewrites U st (expandtabs 4 raw_src)) as [q b]. simpl in Hq, Hb.
  destruct (is_orphan_marker U b);
    [simpl; auto using Forall_snoc, line_ok_quote_blank|].
  pose proof (nl_free_normalize_list_indent st q b Hb) as Hn.
  destruct (_ && _); [apply emit_heading_ok|apply emit_line_ok]; assumption.
Qed.

Lemma main_pass_ok st out src :
  Forall line_ok out -> Forall line_ok src ->
  Forall line_ok (snd (main_pass U st out src)).
Proof.
  intros Ho Hs. revert st out Ho.
  induction Hs as [|l src Hl Hs IH]; intros st out Ho; simpl; [exact Ho|].
  pose proof (main_step_ok st out l (head src) Ho Hl) as H1.
  destruct (main_step U st out l (head src)) as [st' out']. apply IH, H1.
Qed.

Lemma blank_after_lists_ok c out :
  Forall line_ok out -> Forall line_ok (blank_after_lists U c out).
Proof.
  intros H. revert c. induction H as [|l out Hl Ho IH]; intros c; simpl; [constructor|].
  destruct (is_code_fence l); [constructor; [exact Hl|apply IH]|].
  destruct c; [constructor; [exact Hl|apply IH]|].
  constructor; [exact Hl|]. apply Forall_app. split; [|apply IH].
  assert (line_ok (quote_blank (fst (split_blockquote_prefix l)))) as Hq.
  { apply line_ok_quote_blank. apply nl_free_split_blockquote_prefix, Hl. }
  destruct (is_list U l); [|constructor].
  destruct (drop_while is_blankish out) as [|a ?]; [constructor|].
  destruct (negb (is_list U a)); [|constructor].
  destruct out as [|r ?]; [constructor|].
  destruct (negb (is_blankish r)); [constructor; [exact Hq|constructor]|constructor].
Qed.

Lemma collapse_blank_runs_ok n out :
  Forall line_ok out -> Forall line_ok (collapse_blank_runs n out).
Proof.
  intros H. revert n. induction H as [|l out Hl Ho IH]; intros n; simpl; [constructor|].
  destruct (is_blankish l); [|constructor; [exact Hl|apply IH]].
  destruct (1 <? S n)%nat; [apply IH|].
  constructor; [|apply IH].
  match goal with
  | |- line_ok (if ?b then _ else _) => destruct b; [exact Hl|apply line_ok_nil]
  end.
Qed.

Lemma trim_blankish_ok out : Forall line_ok out -> Forall line_ok (trim_blankish out).
Proof. intros H. apply Forall_drop_while_end, Forall_drop_while, H. Qed.

(** The text of a heading is never empty: the marks are followed by white
    space, and a line without trailing white space goes on after it. *)
Lemma heading_text_ok x k e :
  no_trailing_space x -> re_heading_level x = Some (k, e) ->
  strip (drop e x) <> [] /\ no_trailing_space (strip (drop e x)).
Proof.
  intros Hx H. split; [|apply strip_no_trailing_space].
  unfold re_heading_level in H.
  destruct (_ && _); [|discriminate].
  destruct (1 <=? _)%nat eqn:W; [|discriminate]. injection H as <- <-.
  set (k := length (take_while (N.eqb HASH) x)) in *.
  apply Nat.leb_le in W.
  rewrite <- drop_drop, drop_length_take_while.
  intros Hs.
  assert (no_trailing_space (drop k x)) as Hd.
  { apply no_trailing_space_last. intros c Hc.
    apply (proj1 (no_trailing_space_last x) Hx).
    rewrite <- (take_drop k x), last_app, Hc. reflexivity. }
  assert (no_trailing_space (drop_while is_space (drop k x))) as Hd'
    by (apply no_trailing_space_drop_while, Hd).
  unfold strip in Hs. rewrite Hd' in Hs. unfold lstrip in Hs.
  assert (drop_while is_space (drop k x) = []) as Hnil.
  { destruct (drop_while is_space (drop k x)) as [|c t] eqn:E; [reflexivity|].
    pose proof (drop_while_head _ _ _ _ E) as Hc.
    simpl in Hs. rewrite Hc in Hs. discriminate. }
  pose proof (take_drop_while is_space (drop k x)) as Htd.
  rewrite Hnil, app_nil_r in Htd.
  pose proof (forallb_take_while is_space (drop k x)) as Hall.
  rewrite Htd in Hall.
  apply drop_while_end_nil_iff in Hall.
  unfold no_trailing_space, rstrip, rstrip_by in Hd. rewrite Hall in Hd.
  rewrite <- Hd in W. simpl in W. lia.
Qed.

Lemma is_space_RPAREN_FW : is_space RPAREN_FW = false.
Proof. reflexivity. Qed.

Lemma finalize_headings_ok hc h1 c out :
  Forall line_ok out -> Forall line_ok (finalize_headings hc h1 c out).
Proof.
  intros H. revert hc h1 c.
  induction H as [|l out Hl Ho IH]; intros hc h1 c; simpl; [constructor|].
  destruct (is_code_fence l); [constructor; [exact Hl|apply IH]|].
  destruct c; [constructor; [exact Hl|apply IH]|].
  destruct (nl_free_split_blockquote_prefix l (proj2 Hl)) as [Hq Hb].
  destruct (split_blockquote_prefix l) as [q b]. simpl in Hq, Hb.
  destruct (re_heading_level (strip b)) as [[k e]|] eqn:E;
    [|constructor; [exact Hl|apply IH]].
  destruct (negb (nonempty q)); [|constructor; [exact Hl|apply IH]].
  set (s2 := strip_heading_trailing_punct (strip b)).
  set (text := strip (match re_heading_level s2 with
                      | Some (_, e2) => drop e2 s2
                      | None => drop e (strip b) end)).
  assert (text <> [] /\ no_trailing_space text /\ nl_free text) as (Ht & Hts & Htn).
  { subst text. destruct (re_heading_level s2) as [[k2 e2]|] eqn:E2.
    - assert (no_trailing_space s2) as Hs2.
      { subst s2.
        apply strip_heading_trailing_punct_ok, strip_no_trailing_space. }
      destruct (heading_text_ok s2 k2 e2 Hs2 E2). repeat split; try assumption.
      subst s2. solve_nl_free.
    - destruct (heading_text_ok (strip b) k e (strip_no_trailing_space b) E).
      repeat split; try assumption. solve_nl_free. }
  clearbody text.
  match goal with
  | |- context [if (?lv =? 1)%nat then _ else _] =>
    destruct (if (lv =? 1)%nat
              then if h1 then (2%nat, h1) else (lv, true)
              else (lv, h1)) as [level h1']
  end.
  constructor; [|apply IH].
  destruct (1 <? _)%nat.
  - split; [|solve_nl_free].
    apply no_trailing_space_app; [discriminate|].
    apply (no_trailing_space_app (SP :: text)); [discriminate|].
    apply (no_trailing_space_app (LPAREN_FW :: str_of_nat _) [RPAREN_FW]);
      [discriminate|reflexivity].
  - split; [|solve_nl_free].
    apply no_trailing_space_app; [discriminate|].
    apply (no_trailing_space_app [SP] text); assumption.
Qed.

Lemma source_lines_ok md : Forall line_ok (source_lines md).
Proof.
  unfold source_lines. apply Forall_fmap.
  eapply Forall_impl; [apply nl_free_split_nl|].
  intros l Hl. apply line_ok_rstrip, Hl.
Qed.

Lemma normalize_lines_ok src :
  Forall line_ok src -> Forall line_ok (normalize_lines U src).
Proof.
  intros H. unfold normalize_lines.
  apply finalize_headings_ok, trim_blankish_ok, collapse_blank_runs_ok,
    blank_after_lists_ok, main_pass_ok; [constructor|exact H].
Qed.

(** The lines of the output: the final lines without the empty ones at the
    end, then the empty line after the closing line feed. *)
Lemma split_nl_normalize md :
  split_nl (normalize U md) =
  match drop_while_end is_empty (normalize_lines U (source_lines md)) with
  | [] => [[]; []]
  | r => r ++ [[]]
  end.
Proof.
  unfold normalize. apply split_nl_rstrip_join_nl, normalize_lines_ok, source_lines_ok.
Qed.

End LineInvariant.

(** ** Shape of the output *)

Section OutputShape.

Context (U : UnicodeTables).

(** C9: [normalize] is a total function of the text; its result is some
    text followed by a line feed, and that text does not itself end with a
    line feed, so the output ends with exactly one; the empty input gives
    the single line feed. *)
Theorem C9_total_one_trailing_newline (md : list N) :
  (exists body, normalize U md = body ++ [NL] /\ last body <> Some NL)
  /\ normalize U (py "") = py "\n".
Proof.
  split; [|vm_compute; reflexivity].
  unfold normalize. eexists. split; [reflexivity|].
  intros H. apply rstrip_last in H. discriminate.
Qed.

(** C10: trailing white space is stripped from every source line before
    anything else happens, and no line of the output, fenced code included,
    ends with white space. *)
Theorem C10_no_trailing_whitespace (md : list N) :
  Forall no_trailing_space (source_lines md)
  /\ Forall no_trailing_space (split_nl (normalize U md)).
Proof.
  split.
  - eapply Forall_impl; [apply source_lines_ok|]. intros l [H _]. exact H.
  - rewrite split_nl_normalize.
    pose proof (normalize_lines_ok U _ (source_lines_ok md)) as H.
    apply (Forall_drop_while_end is_empty) in H.
    assert (Forall no_trailing_space
              (drop_while_end is_empty (normalize_lines U (source_lines md)))) as H'.
    { eapply Forall_impl; [exact H|]. intros l [Hl _]. exact Hl. }
    destruct (drop_while_end is_empty _) as [|m ms].
    + repeat constructor.
    + apply Forall_snoc; [exact H'|reflexivity].
Qed.

End OutputShape.

Lemma collapse_blank_runs_counter n m after :
  starts_unblankish after ->
  collapse_blank_runs n after = collapse_blank_runs m after.
Proof.
  destruct after as [|a rest]; simpl; [reflexivity|]. intros ->. reflexivity.
Qed.

Lemma collapse_blank_runs_skip n run after :
  Forall (fun r => is_blankish r = true) run -> starts_unblankish after ->
  collapse_blank_runs (S n) (run ++ after) = collapse_blank_runs 0 after.
Proof.
  intros Hr Ha. revert n. induction Hr as [|r run Hb Hr IH]; intros n.
  - apply collapse_blank_runs_counter, Ha.
  - simpl. rewrite Hb. apply IH.
Qed.

Lemma collapse_blank_runs_run l run after :
  Forall (fun r => is_blankish r = true) (l :: run) -> starts_unblankish after ->
  collapse_blank_runs 0 ((l :: run) ++ after)
  = kept_blank l :: collapse_blank_runs 0 after.
Proof.
  intros H Ha. inversion H as [|? ? Hl Hr]; subst.
  change (collapse_blank_runs 0 ((l :: run) ++ after))
    with (if is_blankish l
          then kept_blank l :: collapse_blank_runs 1 (run ++ after)
          else l :: collapse_blank_runs 0 (run ++ after)).
  rewrite Hl. f_equal. apply collapse_blank_runs_skip; assumption.
Qed.

Lemma collapse_blank_runs_after n before x rest :
  is_blankish x = false ->
  collapse_blank_runs n (before ++ x :: rest)
  = collapse_blank_runs n (before ++ [x]) ++ collapse_blank_runs 0 rest.
Proof.
  intros Hx. revert n. induction before as [|b before IH]; intros n; simpl.
  - rewrite Hx. reflexivity.
  - destruct (is_blankish b).
    + destruct (1 <? S n)%nat; [apply IH|]. rewrite IH. reflexivity.
    + rewrite IH. reflexivity.
Qed.

Lemma kept_blank_blank l : is_blank l = true -> kept_blank l = [].
Proof.
  unfold is_blank, kept_blank. destruct (strip l); [reflexivity|discriminate].
Qed.

Lemma kept_blank_quote l :
  is_blankish l = true -> is_blank l = false -> kept_blank l = l.
Proof.
  unfold is_blankish. intros H Hb. rewrite Hb in H. simpl in H.
  apply andb_true_iff in H as [Hall _].
  unfold kept_blank, is_blank in *.
  destruct (strip l) as [|c t] eqn:E; [discriminate|].
  assert (is_space c = false) as Hc by exact (drop_while_head _ _ _ _ E).
  assert (In c l) as Hin.
  { assert (In c (strip l)) as Hi by (rewrite E; left; reflexivity).
    unfold strip, lstrip, rstrip, rstrip_by in Hi.
    pose proof (take_drop_while is_space (drop_while_end is_space l)) as H1.
    destruct (drop_while_end_split is_space l) as (u & H2 & _).
    rewrite H2. apply in_or_app. left. rewrite <- H1. apply in_or_app. right.
    exact Hi. }
  rewrite forallb_forall in Hall. specialize (Hall c Hin).
  rewrite Hc, orb_false_r in Hall. apply N.eqb_eq in Hall. subst c. reflexivity.
Qed.

(** C4, as amended: a run of blank or quote-blank lines is replaced by one
    line; that line is empty when the run starts with a blank line, and is
    the first line of the run, quote markers included, when the run starts
    with a quote-blank line. *)
Theorem C4_blank_run_collapses_to_one_line
    (n : nat) (before : list (list N)) (x l : list N) (run after : list (list N)) :
  is_blankish x = false ->
  Forall (fun r => is_blankish r = true) (l :: run) ->
  starts_unblankish after ->
  collapse_blank_runs 0 ((l :: run) ++ after)
  = kept_blank l :: collapse_blank_runs 0 after
  /\ collapse_blank_runs n (before ++ x :: (l :: run) ++ after)
     = collapse_blank_runs n (before ++ [x])
       ++ kept_blank l :: collapse_blank_runs 0 after
  /\ (is_blank l = true -> kept_blank l = [])
  /\ (is_blank l = false -> kept_blank l = l).
Proof.
  intros Hx Hr Ha. repeat split.
  - apply collapse_blank_runs_run; assumption.
  - rewrite collapse_blank_runs_after by exact Hx.
    rewrite collapse_blank_runs_run by assumption. reflexivity.
  - apply kept_blank_blank.
  - apply kept_blank_quote. inversion Hr; assumption.
Qed.

Lemma C4_blank_run_witness :
  collapse_blank_runs 0 [py "a"; py ">"; py ""; py ">"; py "b"]
  = [py "a"; py ">"; py "b"].
Proof.
  destruct (C4_blank_run_collapses_to_one_line 0 [] (py "a") (py ">")
              [py ""; py ">"] [py "b"]) as (_ & H & _).
  - reflexivity.
  - repeat constructor.
  - reflexivity.
  - exact H.
Defined.

(** C4 as stated fails: a run that starts with a quote-blank line is not
    replaced by an empty line; the quote-blank line itself stays. *)
Lemma C4_quote_blank_line_is_kept :
  is_blankish (py ">") = true
  /\ collapse_blank_runs 0 [py "a"; py ">"; py ">"; py "b"]
     = [py "a"; py ">"; py "b"]
  /\ collapse_blank_runs 0 [py "a"; py ">"; py ">"; py "b"]
     <> [py "a"; py ""; py "b"].
Proof. repeat split; try reflexivity. vm_compute. discriminate. Qed.

(** ** List state at a heading (lines 550-557) *)

Section HeadingReset.

Context (U : UnicodeTables).

(** C5: at a heading outside a blockquote the indentation stack, the
    counter table and the list-type table are emptied, but the table of
    ordered-marker widths is left as it was: after the two lines ["1. a"]
    and ["# H"] it still maps the empty indentation to 3. *)
Theorem C5_heading_keeps_marker_width
    (st : State) (out : list (list N)) (body : list N) (next : option (list N)) :
  (list_indent_stack (fst (emit_heading st out body next)) = []
   /\ ol_counters (fst (emit_heading st out body next)) = ∅
   /\ last_list_type (fst (emit_heading st out body next)) = ∅
   /\ ol_marker_width (fst (emit_heading st out body next)) = ol_marker_width st)
  /\ (list_indent_stack (fst (main_pass U init_state [] [py "1. a"; py "# H"])) = []
      /\ ol_counters (fst (main_pass U init_state [] [py "1. a"; py "# H"])) = ∅
      /\ last_list_type (fst (main_pass U init_state [] [py "1. a"; py "# H"])) = ∅
      /\ ol_marker_width (fst (main_pass U init_state [] [py "1. a"; py "# H"]))
         = {[ [] := 3%nat ]}).
Proof.
  split.
  - unfold emit_heading.
    destruct (re_heading_level (strip body)) as [[k e]|];
      (destruct next as [nxt|]; [destruct (negb (is_blank nxt))|]);
      repeat split; reflexivity.
  - repeat split; vm_compute; reflexivity.
Qed.

End HeadingReset.

(** ** Fenced code *)

Section FencedCode.

Context (U : UnicodeTables).

Lemma set_in_code_twice st :
  in_code st = false -> set_in_code false (set_in_code true st) = st.
Proof. destruct st; simpl; intros ->; reflexivity. Qed.

Lemma main_pass_in_code st out code rest :
  in_code st = true -> unfenced code ->
  main_pass U st out (code ++ rest) = main_pass U st (out ++ code) rest.
Proof.
  intros Hc Hf. revert out. induction Hf as [|l code Hl Hf IH]; intros out.
  - rewrite app_nil_r. reflexivity.
  - simpl. unfold main_step. rewrite Hl, Hc. rewrite IH, <- app_assoc. reflexivity.
Qed.

Lemma blank_after_lists_in_code code rest :
  unfenced code ->
  blank_after_lists U true (code ++ rest) = code ++ blank_after_lists U true rest.
Proof.
  induction 1 as [|l code Hl Hf IH]; simpl; [reflexivity|].
  rewrite Hl, IH. reflexivity.
Qed.

Lemma finalize_headings_in_code hc h1 code rest :
  unfenced code ->
  finalize_headings hc h1 true (code ++ rest)
  = code ++ finalize_headings hc h1 true rest.
Proof.
  induction 1 as [|l code Hl Hf IH]; simpl; [reflexivity|].
  rewrite Hl, IH. reflexivity.
Qed.

(** C2, as amended: the lines of the source are first stripped of trailing
    white space (line 366); after that, an opening fence, the lines up to
    the matching closing fence and the closing fence go through the main
    pass, the second pass and the heading pass unchanged, and the state of
    the main pass after the block is the state before it. *)
Theorem C2_fenced_block_is_copied
    (st : State) (out : list (list N)) (f1 f2 : list N)
    (code rest : list (list N)) (hc : gmap (list N) nat) (h1 : bool) :
  in_code st = false ->
  is_code_fence f1 = true -> is_code_fence f2 = true -> unfenced code ->
  main_pass U st out (f1 :: code ++ f2 :: rest)
  = main_pass U st (out ++ f1 :: code ++ [f2]) rest
  /\ blank_after_lists U false (f1 :: code ++ f2 :: rest)
     = f1 :: code ++ f2 :: blank_after_lists U false rest
  /\ finalize_headings hc h1 false (f1 :: code ++ f2 :: rest)
     = f1 :: code ++ f2 :: finalize_headings hc h1 false rest.
Proof.
  intros Hc H1 H2 Hf. repeat split.
  - simpl. unfold main_step at 1. rewrite H1, Hc. simpl negb.
    rewrite main_pass_in_code by (reflexivity || exact Hf).
    simpl. unfold main_step at 1. rewrite H2. simpl in_code. simpl negb.
    rewrite set_in_code_twice by exact Hc.
    f_equal. rewrite <- !app_assoc. reflexivity.
  - simpl. rewrite H1. simpl. rewrite blank_after_lists_in_code by exact Hf.
    simpl. rewrite H2. reflexivity.
  - simpl. rewrite H1. simpl. rewrite finalize_headings_in_code by exact Hf.
    simpl. rewrite H2. reflexivity.
Qed.

End FencedCode.

Lemma C2_fenced_block_witness :
  snd (main_pass ascii_tables init_state []
         [py "```"; py "\tsee https://example.com"; py "1) x"; py "```"; py "# a"])
  = snd (main_pass ascii_tables init_state
           [py "```"; py "\tsee https://example.com"; py "1) x"; py "```"]
           [py "# a"]).
Proof.
  destruct (C2_fenced_block_is_copied ascii_tables init_state []
              (py "```") (py "```") [py "\tsee https://example.com"; py "1) x"]
              [py "# a"] ∅ false) as (H & _).
  - reflexivity.
  - reflexivity.
  - reflexivity.
  - repeat constructor.
  - exact (f_equal snd H).
Defined.

(** C2 as stated fails: the fenced line ["x = 1  "] is not in the output;
    it comes out without its two trailing spaces. *)
Lemma C2_fenced_line_loses_trailing_space :
  split_nl (py "```\nx = 1  \n```\n") = [py "```"; py "x = 1  "; py "```"; py ""]
  /\ is_code_fence (py "```") = true
  /\ emits (py "```\nx = 1  \n```\n") (py "```\nx = 1\n```\n")
  /\ ~ In (py "x = 1  ") (split_nl (py "```\nx = 1\n```\n")).
Proof.
  split; [reflexivity|]. split; [reflexivity|].
  split; [intros U; vm_compute; reflexivity|].
  vm_compute. intros [H|[H|[H|[H|[]]]]]; discriminate.
Qed.


Lemma startswith_app p r : startswith p (p ++ r) = true.
Proof.
  induction p as [|a p IH]; simpl; [reflexivity|]. rewrite N.eqb_refl. exact IH.
Qed.









(** *** The scan *)












(** ** The score-breakdown heuristic (lines 495-520) *)

Section PercentPromotion.

Context (U : UnicodeTables).

Lemma has_percent_nonempty rest : has_percent U rest = true -> rstrip rest <> [].
Proof.
  unfold has_percent, ends_with_percent, looks_like_percent_item.
  intros H E. rewrite E in H. discriminate.
Qed.

Lemma is_digit_DASH : is_digit U DASH = false.
Proof. reflexivity. Qed.

Lemma ol_marker_at_dash t : ol_marker_at U (DASH :: t) = None.
Proof. reflexivity. Qed.

Lemma re_ol_marker_dash indent t :
  forallb is_space indent = true -> re_ol_marker U (indent ++ DASH :: t) = None.
Proof.
  intros H. unfold re_ol_marker.
  rewrite drop_length_take_while, drop_while_app by exact H. reflexivity.
Qed.

Lemma re_list_dash t : re_list U ([DASH; SP] ++ t) = true.
Proof. reflexivity. Qed.

Lemma leading_ws_len_dash t : leading_ws_len (DASH :: t) = 0%nat.
Proof. unfold leading_ws_len, lstrip. simpl. lia. Qed.

Lemma rstrip_cons_not_space c t : is_space c = false -> rstrip (c :: t) = c :: rstrip t.
Proof.
  intros H. unfold rstrip, rstrip_by. simpl.
  destruct (drop_while_end is_space t); [rewrite H|]; reflexivity.
Qed.

Lemma strip_dash t : strip (DASH :: t) = DASH :: rstrip t.
Proof.
  unfold strip. rewrite rstrip_cons_not_space by reflexivity. reflexivity.
Qed.

Lemma re_heading_dash t : re_heading (strip (DASH :: t)) = false.
Proof. rewrite strip_dash. reflexivity. Qed.

(** An unordered item with text after the marker is not an orphan marker. *)
Lemma ul_item_not_orphan body indent e :
  re_ul_dash body = Some (indent, e) -> rstrip (strip (drop e body)) <> [] ->
  is_orphan_marker U body = false.
Proof.
  intros H Hne.
  apply re_marker_inv in H as (c & ws & tail & Hb & Hi & Hc & Hws & Hsp & Ht & He & Hd).
  apply N.eqb_eq in Hc. subst c. rewrite Hd in Hne.
  assert (rstrip tail <> []) as Hrt.
  { intros E. apply Hne. unfold strip. rewrite E. reflexivity. }
  assert (forallb is_space indent = true) as Hind
    by (rewrite Hi; apply forallb_take_while).
  assert (strip body = DASH :: ws ++ rstrip tail) as Hs.
  { rewrite Hb. unfold strip, rstrip, rstrip_by in *.
    rewrite drop_while_end_app.
    change (DASH :: ws ++ tail) with ([DASH] ++ ws ++ tail).
    rewrite (drop_while_end_app _ [DASH]), (drop_while_end_app _ ws).
    destruct (drop_while_end is_space tail) as [|a r] eqn:E; [contradiction|].
    destruct (ws ++ a :: r) eqn:E1; [destruct ws; discriminate|]. rewrite <- E1.
    destruct ([DASH] ++ ws ++ a :: r) eqn:E2; [discriminate|]. rewrite <- E2.
    unfold lstrip. rewrite drop_while_app by exact Hind. reflexivity. }
  unfold is_orphan_marker. rewrite Hs.
  destruct ws as [|w ws]; [contradiction|]. reflexivity.
Qed.

Lemma percent_promotion_true st q rest prest :
  prev_list st = Some (q, UL, 2%nat, prest) ->
  has_percent U rest = true -> has_percent U prest = false ->
  percent_promotion U st q 2
    (ends_with_percent U rest) (looks_like_percent_item U rest) = true.
Proof.
  intros Hp Hr Hpr. unfold percent_promotion. rewrite Hp.
  unfold has_percent in Hr. rewrite Hr, Hpr.
  unfold str_eqb. rewrite bool_decide_eq_true_2 by reflexivity. reflexivity.
Qed.

Lemma nearest_ol_ancestor_indent_0 st parents body e :
  match nearest_ol_ancestor st parents with
  | Some (parent_indent_len, w) =>
    let desired := (parent_indent_len + w)%nat in
    if (parent_indent_len <? 0)%nat then
      if (0 <? desired)%nat || negb (0 =? desired)%nat
      then (repeat SP desired ++ [DASH; SP] ++ lstrip (drop e body), desired, true)
      else (body, 0%nat, true)
    else (body, 0%nat, false)
  | None => (body, 0%nat, false)
  end = (body, 0%nat, false).
Proof. destruct (nearest_ol_ancestor st parents) as [[p w]|]; reflexivity. Qed.

Lemma normalize_ul_indent_promoted st q body indent e prest :
  length indent = 2%nat ->
  prev_list st = Some (q, UL, 2%nat, prest) ->
  has_percent U (strip (drop e body)) = true -> has_percent U prest = false ->
  normalize_ul_indent U st q body indent e = promoted_body U body e.
Proof.
  intros Hlen Hp Hr Hpr. unfold normalize_ul_indent, promoted_body.
  rewrite Hlen, (percent_promotion_true st q _ prest Hp Hr Hpr).
  cbv zeta. cbv iota. cbv beta.
  change (0 <=? 3)%nat with true. cbn [andb].
  destruct (looks_like_percent_item U (strip (drop e body)));
    rewrite nearest_ol_ancestor_indent_0; reflexivity.
Qed.

Lemma promoted_body_dash body e :
  exists text, promoted_body U body e = [DASH; SP] ++ text
    /\ (looks_like_percent_item U (strip (drop e body)) = false ->
        text = lstrip (drop e body)).
Proof.
  unfold promoted_body.
  destruct (looks_like_percent_item U (strip (drop e body))); eexists;
    (split; [reflexivity|]); [discriminate|reflexivity].
Qed.

Lemma last_pop_deeper_0 stack :
  last (match last (pop_deeper 0 stack) with
        | None => pop_deeper 0 stack ++ [0%nat]
        | Some top =>
          if (top <? 0)%nat then pop_deeper 0 stack ++ [0%nat]
          else pop_deeper 0 stack
        end) = Some 0%nat.
Proof.
  destruct (last (pop_deeper 0 stack)) as [top|] eqn:E.
  - change (top <? 0)%nat with false. cbv iota. rewrite E.
    apply drop_while_end_last in E. apply Nat.ltb_ge in E.
    f_equal. lia.
  - apply last_snoc.
Qed.

Lemma track_indent_stack_dash st text :
  track_indent_stack U st ([DASH; SP] ++ text)
  = (set_stack (push_top_level (list_indent_stack st)) st, [DASH; SP] ++ text).
Proof.
  unfold track_indent_stack. rewrite re_list_dash.
  change (leading_ws_len ([DASH; SP] ++ text)) with (leading_ws_len (DASH :: SP :: text)).
  rewrite leading_ws_len_dash. reflexivity.
Qed.

Lemma renumber_dash st text :
  snd (renumber U st ([DASH; SP] ++ text)) = [DASH; SP] ++ text
  /\ list_indent_stack (fst (renumber U st ([DASH; SP] ++ text)))
     = list_indent_stack st.
Proof.
  unfold renumber.
  rewrite (re_ol_marker_dash [] (SP :: text) eq_refl : re_ol_marker U ([DASH; SP] ++ text) = None).
  rewrite re_list_dash. split; reflexivity.
Qed.

(** An item that starts with a dash at column 0 goes out as
    [quote_prefix + body], and leaves 0 on top of the indentation stack. *)
Lemma emit_line_dash st out q text :
  last (snd (emit_line U st out q ([DASH; SP] ++ text)))
  = Some (rstrip (q ++ [DASH; SP] ++ text))
  /\ last (list_indent_stack (fst (emit_line U st out q ([DASH; SP] ++ text))))
     = Some 0%nat.
Proof.
  unfold emit_line. rewrite track_indent_stack_dash.
  destruct (renumber_dash (set_stack (push_top_level (list_indent_stack st)) st) text)
    as [Hb Hs].
  destruct (renumber U _ ([DASH; SP] ++ text)) as [st2 b2].
  cbn [fst snd] in Hb, Hs. subst b2. rewrite re_list_dash.
  split.
  - cbn [snd]. apply last_snoc.
  - cbn [fst]. destruct st2. cbn in *. rewrite Hs. apply last_pop_deeper_0.
Qed.

(** C6, as amended: an unordered item at indentation 2 that ends with a
    percent value, met right after a line that was emitted as an unordered
    item at indentation 2 with the same blockquote prefix and without a
    percent value, is emitted with its dash at indentation 0, and 0 is the
    top of the indentation stack afterwards.  When the percent value is not
    parenthesised the text after the dash is the item's own text. *)
Theorem C6_percent_item_promoted_to_top_level
    (st : State) (out : list (list N)) (raw_src : list N) (next : option (list N))
    (quote_prefix body indent prest : list N) (e : nat) :
  in_code st = false ->
  is_code_fence raw_src = false ->
  is_blank (expandtabs 4 raw_src) = false ->
  inline_rewrites U st (expandtabs 4 raw_src) = (quote_prefix, body) ->
  re_ul_dash body = Some (indent, e) ->
  length indent = 2%nat ->
  has_percent U (strip (drop e body)) = true ->
  prev_list st = Some (quote_prefix, UL, 2%nat, prest) ->
  has_percent U prest = false ->
  exists text,
    last (snd (main_step U st out raw_src next))
    = Some (rstrip (quote_prefix ++ [DASH; SP] ++ text))
    /\ last (list_indent_stack (fst (main_step U st out raw_src next))) = Some 0%nat
    /\ (looks_like_percent_item U (strip (drop e body)) = false ->
        text = lstrip (drop e body)).
Proof.
  intros Hc Hf Hb Hi Hm Hlen Hr Hp Hpr.
  destruct (promoted_body_dash body e) as (text & Ht & Htext).
  exists text.
  cut (last (snd (main_step U st out raw_src next))
       = Some (rstrip (quote_prefix ++ [DASH; SP] ++ text))
       /\ last (list_indent_stack (fst (main_step U st out raw_src next)))
          = Some 0%nat).
  { intros [A B]. repeat split; assumption. }
  unfold main_step. rewrite Hf, Hc. cbn [orb]. rewrite Hb, Hi.
  rewrite (ul_item_not_orphan body indent e Hm)
    by (rewrite (rstrip_no_trailing_space _ : rstrip (strip _) = strip _)
        || idtac; apply has_percent_nonempty, Hr).
  unfold normalize_list_indent.
  pose proof (re_marker_inv _ _ _ _ Hm) as (c & ws & tail & Hbody & Hind & Hdash & _).
  apply N.eqb_eq in Hdash. subst c.
  assert (re_ol_marker U body = None) as Hol.
  { rewrite Hbody. apply re_ol_marker_dash. rewrite Hind. apply forallb_take_while. }
  rewrite Hol, Hm.
  rewrite (normalize_ul_indent_promoted st quote_prefix body indent e prest Hlen Hp Hr Hpr).
  rewrite Ht.
  rewrite !(re_heading_dash (SP :: text)
            : re_heading (strip ([DASH; SP] ++ text)) = false), !andb_false_r.
  apply emit_line_dash.
Qed.

End PercentPromotion.

Lemma C6_percent_item_witness :
  exists text,
    last (snd (main_step ascii_tables
                 (fst (main_pass ascii_tables init_state [] [py "- a"; py "  - note"]))
                 [py "- a"; py "  - note"] (py "  - Exam 30%") None))
    = Some (rstrip ([] ++ [DASH; SP] ++ text))
    /\ last (list_indent_stack
               (fst (main_step ascii_tables
                       (fst (main_pass ascii_tables init_state []
                               [py "- a"; py "  - note"]))
                       [py "- a"; py "  - note"] (py "  - Exam 30%") None)))
       = Some 0%nat
    /\ (looks_like_percent_item ascii_tables
          (strip (drop 4 (py "  - Exam 30%"))) = false ->
        text = lstrip (drop 4 (py "  - Exam 30%"))).
Proof.
  apply (C6_percent_item_promoted_to_top_level ascii_tables
           (fst (main_pass ascii_tables init_state [] [py "- a"; py "  - note"]))
           [py "- a"; py "  - note"] (py "  - Exam 30%") None
           [] (py "  - Exam 30%") (py "  ") (py "note") 4);
    vm_compute; reflexivity.
Defined.

(** C6 as stated fails: the item at indentation 2 that ends with a percent
    value stays at indentation 2 when a blank line separates it from the
    preceding item, when the preceding item at indentation 2 is an ordered
    one, and when the preceding item stood at indentation 2 in the source
    but was emitted at top level. *)
Lemma C6_percent_item_not_promoted :
  emits (py "- a\n  - note\n\n  - Exam 30%\n") (py "- a\n  - note\n\n  - Exam 30%\n")
  /\ emits (py "1. a\n    2. b\n  - c 50%\n") (py "1. a\n  1. b\n  - c 50%\n")
  /\ emits (py "  - note\n  - Exam 30%\n") (py "- note\n  - Exam 30%\n").
Proof. repeat split; intros U; vm_compute; reflexivity. Qed.

(** ** Ordered numbering (lines 584-596) *)






Section Numbering.

Context (U : UnicodeTables).

Lemma is_digit_not_space c : is_digit U c = true -> is_space c = false.
Proof.
  unfold is_digit. destruct (c <? 128) eqn:E.
  - intros H. apply andb_true_iff in H as [H1 H2].
    apply N.leb_le in H1, H2. unfold is_space.
    repeat match goal with
    | |- context [(?a <=? ?b)] =>
      let L := fresh in destruct (N.leb_spec a b) as [L|L]; try lia
    | |- context [(?a =? ?b)] =>
      let L := fresh in destruct (N.eqb_spec a b) as [L|L]; try lia
    end; reflexivity.
  - intros H. apply andb_true_iff in H as [_ H].
    apply negb_true_iff in H. exact H.
Qed.

Lemma is_digit_ascii c : (48 <=? c) && (c <=? 57) = true -> is_digit U c = true.
Proof.
  intros H. unfold is_digit.
  destruct (N.ltb_spec c 128) as [_|L]; [exact H|].
  apply andb_true_iff in H as [_ H]. apply N.leb_le in H. lia.
Qed.




Lemma forallb_digit_not_space num :
  forallb (is_digit U) num = true -> num <> [] ->
  drop_while is_space (num ++ []) = num /\ match num with
                                          | c :: _ => is_space c = false
                                          | [] => False
                                          end.
Proof.
  intros H Hne. destruct num as [|c num]; [contradiction|].
  simpl in H. apply andb_true_iff in H as [Hc _].
  apply is_digit_not_space in Hc. rewrite app_nil_r. simpl. rewrite Hc. auto.
Qed.














Lemma In_drop_while_end {A} (p : A -> bool) (s : list A) c :
  In c s -> p c = false -> In c (drop_while_end p s).
Proof.
  intros Hin Hc. destruct (drop_while_end_split p s) as (t & E & Ht).
  rewrite E in Hin. apply in_app_or in Hin as [H|H]; [exact H|].
  rewrite forallb_forall in Ht. rewrite (Ht c H) in Hc. discriminate.
Qed.

Lemma In_drop_while {A} (p : A -> bool) (s : list A) c :
  In c s -> p c = false -> In c (drop_while p s).
Proof.
  intros Hin Hc. rewrite <- (take_drop_while p s) in Hin.
  apply in_app_or in Hin as [H|H]; [|exact H].
  pose proof (forallb_take_while p s) as Ht.
  rewrite forallb_forall in Ht. rewrite (Ht c H) in Hc. discriminate.
Qed.

Lemma is_blankish_false s c :
  In c s -> is_space c = false -> c <> GT -> is_blankish s = false.
Proof.
  intros Hin Hc Hg. unfold is_blankish. apply orb_false_iff. split.
  - unfold is_blank, strip, lstrip, rstrip, rstrip_by.
    assert (In c (drop_while is_space (drop_while_end is_space s))) as H
      by auto using In_drop_while, In_drop_while_end.
    destruct (drop_while is_space (drop_while_end is_space s)); [contradiction|].
    reflexivity.
  - apply andb_false_iff. left.
    destruct (forallb _ s) eqn:E; [|reflexivity].
    rewrite forallb_forall in E. specialize (E c Hin).
    rewrite Hc, orb_false_r in E. apply N.eqb_eq in E. contradiction.
Qed.
















End Numbering.



(** ** Source lines without carriage returns *)




(** ** Blank runs that are already single *)

Lemma is_blankish_kept_blank l : is_blankish l = true -> is_blankish (kept_blank l) = true.
Proof. intros H. unfold kept_blank. destruct (startswith _ _); [exact H|reflexivity]. Qed.

Lemma collapse_blank_runs_single n ls :
  blank_runs_single (collapse_blank_runs n ls) = true
  /\ ((1 <= n)%nat -> head_unblankish (collapse_blank_runs n ls) = true).
Proof.
  revert n. induction ls as [|l ls IH]; intros n; [split; reflexivity|].
  cbn [collapse_blank_runs]. destruct (is_blankish l) eqn:Hl.
  - destruct (Nat.ltb_spec 1 (S n)) as [L|L].
    + destruct (IH (S n)) as [A B]. split; [exact A|]. intros _. apply B. lia.
    + destruct (IH (S n)) as [A B]. split; [|lia].
      change (if startswith [GT] (strip l) then l else []) with (kept_blank l).
      cbn [blank_runs_single]. rewrite (is_blankish_kept_blank l Hl), A, andb_true_r.
      specialize (B ltac:(lia)).
      destruct (collapse_blank_runs (S n) ls); [reflexivity|exact B].
  - destruct (IH 0%nat) as [A _]. split.
    + cbn [blank_runs_single]. rewrite Hl, A. reflexivity.
    + intros _. cbn [head_unblankish]. rewrite Hl. reflexivity.
Qed.

Lemma blank_runs_single_tail l ls :
  blank_runs_single (l :: ls) = true -> blank_runs_single ls = true.
Proof. cbn [blank_runs_single]. intros H. apply andb_true_iff in H. tauto. Qed.

Lemma blank_runs_single_drop_while ls :
  blank_runs_single ls = true ->
  blank_runs_single (drop_while is_blankish ls) = true
  /\ head_unblankish (drop_while is_blankish ls) = true.
Proof.
  induction ls as [|l ls IH]; intros H; [split; reflexivity|].
  cbn [drop_while]. destruct (is_blankish l) eqn:Hl.
  - apply IH. exact (blank_runs_single_tail _ _ H).
  - split; [exact H|]. cbn [head_unblankish]. rewrite Hl. reflexivity.
Qed.

Lemma last_unblankish_drop_while_end ls :
  last_unblankish (drop_while_end is_blankish ls) = true.
Proof.
  unfold last_unblankish.
  destruct (last (drop_while_end is_blankish ls)) as [x|] eqn:E; [|reflexivity].
  apply drop_while_end_last in E. rewrite E. reflexivity.
Qed.

Lemma blank_runs_single_drop_while_end ls :
  blank_runs_single ls = true ->
  blank_runs_single (drop_while_end is_blankish ls) = true.
Proof.
  induction ls as [|l ls IH]; intros H; [reflexivity|].
  pose proof (blank_runs_single_tail _ _ H) as Ht. specialize (IH Ht).
  cbn [drop_while_end].
  destruct (drop_while_end is_blankish ls) as [|x r] eqn:E.
  - destruct (is_blankish l) eqn:Hl; [reflexivity|].
    cbn [blank_runs_single]. rewrite Hl. reflexivity.
  - change (blank_runs_single (l :: x :: r))
      with ((if is_blankish l then negb (is_blankish x) else true)
            && blank_runs_single (x :: r)).
    rewrite IH, andb_true_r.
    destruct (is_blankish l) eqn:Hl; [|reflexivity].
    destruct ls as [|y ls']; [discriminate|].
    change (blank_runs_single (l :: y :: ls'))
      with ((if is_blankish l then negb (is_blankish y) else true)
            && blank_runs_single (y :: ls')) in H.
    rewrite Hl in H. apply andb_true_iff in H as [H _].
    cbn [drop_while_end] in E.
    destruct (drop_while_end is_blankish ls');
      [destruct (is_blankish y) eqn:Hy; [discriminate|]|];
      injection E as <- _; [rewrite Hy; reflexivity|exact H].
Qed.

Lemma head_unblankish_drop_while_end ls :
  head_unblankish ls = true -> head_unblankish (drop_while_end is_blankish ls) = true.
Proof.
  destruct ls as [|l ls]; [reflexivity|]. cbn [head_unblankish drop_while_end].
  intros H. apply negb_true_iff in H.
  destruct (drop_while_end is_blankish ls); rewrite ?H; cbn; rewrite ?H; reflexivity.
Qed.

Lemma trim_collapse_tidy ls : tidy (trim_blankish (collapse_blank_runs 0 ls)).
Proof.
  unfold trim_blankish.
  destruct (collapse_blank_runs_single 0 ls) as [A _].
  destruct (blank_runs_single_drop_while _ A) as [B C].
  repeat split.
  - apply blank_runs_single_drop_while_end, B.
  - apply head_unblankish_drop_while_end, C.
  - apply last_unblankish_drop_while_end.
Qed.




Lemma tidy_no_empty_tail ls : tidy ls -> drop_while_end is_empty ls = ls.
Proof.
  intros (_ & _ & Hl). apply drop_while_end_fixed. intros y Hy.
  unfold last_unblankish in Hl. rewrite Hy in Hl. apply negb_true_iff in Hl.
  destruct y; [discriminate|reflexivity].
Qed.


(** ** Scenarios of the specification *)

Section Scenarios.

Context (U : UnicodeTables).

(** C8: the second of two identical top-level headings is demoted to level
    2 and takes the occurrence counter in full-width parentheses; one blank
    line separates the two headings. *)
Theorem C8_second_h1_demoted_and_suffixed :
  normalize U (py "# A\n# A\n") = py "# A\n\n## A（2）\n".
Proof. vm_compute. reflexivity. Qed.

End Scenarios.

(** * Further properties of the engine *)

(** ** Blank runs of the output (MD012) *)

Lemma tidy_same_blankish (ls ls' : list (list N)) :
  is_blankish <$> ls = is_blankish <$> ls' -> tidy ls -> tidy ls'.
Proof.
  intros E (Hs & Hh & Hl). repeat split.
  - clear Hh Hl. revert ls' E Hs.
    induction ls as [|l ls IH]; intros [|l' ls'] E Hs; try discriminate E;
      [reflexivity|].
    rewrite !fmap_cons in E. injection E as El E.
    cbn [blank_runs_single] in *. apply andb_true_iff in Hs as [Hn Hs].
    rewrite (IH ls' E Hs), andb_true_r. rewrite <- El.
    destruct (is_blankish l); [|reflexivity].
    destruct ls as [|x ls], ls' as [|x' ls'']; try discriminate E;
      [reflexivity|].
    rewrite !fmap_cons in E. injection E as Ex _. rewrite <- Ex. exact Hn.
  - destruct ls as [|l ls], ls' as [|l' ls'']; try discriminate E;
      [reflexivity|].
    rewrite !fmap_cons in E. injection E as El _.
    cbn [head_unblankish] in *. rewrite <- El. exact Hh.
  - unfold last_unblankish in *.
    assert (is_blankish <$> last ls = is_blankish <$> last ls') as H
      by (rewrite <- !fmap_last, E; reflexivity).
    destruct (last ls) as [a|], (last ls') as [b|]; try discriminate H;
      [|reflexivity].
    cbn in H. injection H as <-. exact Hl.
Qed.

Lemma hash_line_head (level : nat) (r : list N) :
  (1 <= level)%nat -> exists t, repeat HASH level ++ r = HASH :: t.
Proof. destruct level; [lia|]. intros _. eexists. reflexivity. Qed.

Lemma is_blankish_hash_line (level : nat) (r : list N) :
  (1 <= level)%nat -> is_blankish (repeat HASH level ++ r) = false.
Proof.
  intros H. destruct (hash_line_head level r H) as (t & ->).
  apply (is_blankish_false _ HASH); [left; reflexivity|reflexivity|discriminate].
Qed.

Lemma In_drop_while_inv {A} (p : A -> bool) (s : list A) c :
  In c (drop_while p s) -> In c s.
Proof.
  intros H. rewrite <- (take_drop_while p s). apply in_or_app. right. exact H.
Qed.

Lemma In_drop_while_end_inv {A} (p : A -> bool) (s : list A) c :
  In c (drop_while_end p s) -> In c s.
Proof.
  intros H. destruct (drop_while_end_split p s) as (t & E & _).
  rewrite E. apply in_or_app. left. exact H.
Qed.

Lemma In_drop_inv {A} (n : nat) (s : list A) c : In c (drop n s) -> In c s.
Proof.
  intros H. rewrite <- (take_drop n s). apply in_or_app. right. exact H.
Qed.

Lemma In_strip_inv (s : list N) c : In c (strip s) -> In c s.
Proof.
  intros H. apply In_drop_while_inv in H. exact (In_drop_while_end_inv _ _ _ H).
Qed.

Lemma re_heading_level_bounds (x : list N) k e :
  re_heading_level x = Some (k, e) ->
  (1 <= k <= 6)%nat /\ exists t, x = HASH :: t.
Proof.
  unfold re_heading_level. intros H.
  destruct (_ && _) eqn:B; [|discriminate].
  apply andb_true_iff in B as [B1 B2].
  apply Nat.leb_le in B1. apply Nat.leb_le in B2.
  destruct (1 <=? _)%nat; [|discriminate]. injection H as <- _. split; [lia|].
  destruct x as [|c t]; [simpl in B1; lia|].
  cbn [take_while] in B1.
  destruct (N.eqb_spec HASH c) as [<-|]; [|simpl in B1; lia].
  eexists. reflexivity.
Qed.

(** A line with a heading in its body is not blankish. *)
Lemma heading_body_not_blankish (ln : list N) k e :
  re_heading_level (strip (strip_blockquote ln)) = Some (k, e) ->
  is_blankish ln = false.
Proof.
  intros H. apply re_heading_level_bounds in H as (_ & t & E).
  apply (is_blankish_false _ HASH); [|reflexivity|discriminate].
  assert (In HASH (strip (strip_blockquote ln))) as Hin
    by (rewrite E; left; reflexivity).
  apply In_strip_inv in Hin.
  unfold strip_blockquote, split_blockquote_prefix in Hin.
  destruct (drop_while is_space ln) as [|c r] eqn:D; [exact Hin|].
  destruct (c =? GT); [|exact Hin]. cbn [snd] in Hin.
  apply In_drop_inv in Hin. rewrite <- D in Hin.
  exact (In_drop_while_inv _ _ _ Hin).
Qed.

(** The level the fourth pass gives a heading is between 1 and 6. *)
Lemma final_level_bounds (s s2 : list N) k e (h1 : bool) :
  re_heading_level s = Some (k, e) ->
  let level := match re_heading_level s2 with Some (k2, _) => k2 | None => k end in
  (1 <= level <= 6)%nat
  /\ (1 <= fst (if (level =? 1)%nat
                then if h1 then (2%nat, h1) else (level, true)
                else (level, h1)) <= 6)%nat.
Proof.
  intros E level.
  assert (1 <= level <= 6)%nat as Hl.
  { subst level. destruct (re_heading_level s2) as [[k2 e2]|] eqn:E2.
    - exact (proj1 (re_heading_level_bounds _ _ _ E2)).
    - exact (proj1 (re_heading_level_bounds _ _ _ E)). }
  split; [exact Hl|].
  destruct (level =? 1)%nat; [destruct h1|]; cbn [fst]; lia.
Qed.

(** The fourth pass leaves blankish lines alone and turns no line into a
    blankish one. *)
Lemma finalize_headings_blankish hc h1 c (ls : list (list N)) :
  is_blankish <$> finalize_headings hc h1 c ls = is_blankish <$> ls.
Proof.
  revert hc h1 c. induction ls as [|l ls IH]; intros hc h1 c; [reflexivity|].
  cbn [finalize_headings].
  destruct (is_code_fence l); [rewrite !fmap_cons, IH; reflexivity|].
  destruct c; [rewrite !fmap_cons, IH; reflexivity|].
  pose proof (heading_body_not_blankish l) as Hb. unfold strip_blockquote in Hb.
  destruct (split_blockquote_prefix l) as [q b]. cbn [snd] in Hb.
  destruct (re_heading_level (strip b)) as [[k e]|] eqn:E;
    [|rewrite !fmap_cons, IH; reflexivity].
  destruct (negb (nonempty q)); [|rewrite !fmap_cons, IH; reflexivity].
  pose proof (final_level_bounds _ (strip_heading_trailing_punct (strip b))
                _ _ h1 E) as [_ Hlv].
  cbv zeta in Hlv.
  match goal with
  | |- context [if (?lv =? 1)%nat then _ else _] =>
    destruct (if (lv =? 1)%nat
              then if h1 then (2%nat, h1) else (lv, true)
              else (lv, h1)) as [level h1']
  end.
  cbn [fst] in Hlv.
  rewrite !fmap_cons, IH, (Hb k e eq_refl).
  rewrite is_blankish_hash_line by lia. reflexivity.
Qed.

Lemma normalize_lines_tidy (U : UnicodeTables) (src : list (list N)) :
  tidy (normalize_lines U src).
Proof.
  unfold normalize_lines.
  eapply tidy_same_blankish;
    [symmetry; apply finalize_headings_blankish|apply trim_collapse_tidy].
Qed.

(** X1 (MD012): the output is its final lines joined by line feeds, with
    one line feed after the last; among these lines no blank or quote-blank
    line is followed by another one, and neither the first nor the last
    line is blank or quote-blank. *)
Theorem X1_output_has_single_blank_runs (U : UnicodeTables) (md : list N) :
  normalize U md = join_nl (normalize_lines U (source_lines md)) ++ [NL]
  /\ blank_runs_single (normalize_lines U (source_lines md)) = true
  /\ head_unblankish (normalize_lines U (source_lines md)) = true
  /\ last_unblankish (normalize_lines U (source_lines md)) = true.
Proof.
  pose proof (normalize_lines_tidy U (source_lines md)) as Ht.
  split; [|exact Ht].
  unfold normalize. f_equal.
  pose proof (normalize_lines_ok U _ (source_lines_ok md)) as Hok.
  rewrite rstrip_join_nl.
  - rewrite (tidy_no_empty_tail _ Ht). reflexivity.
  - eapply Forall_impl; [exact Hok|]. intros l [Hl _]. exact Hl.
Qed.

(** ** A single first-level heading (MD025) *)

Lemma take_while_hash_line (level : nat) (r : list N) :
  take_while (N.eqb HASH) (repeat HASH level ++ SP :: r) = repeat HASH level.
Proof. induction level as [|n IH]; [reflexivity|]. cbn. rewrite IH. reflexivity. Qed.

(** How a line written by the fourth pass reads: it is no fence, it has no
    blockquote prefix, and its level is the number of its marks. *)
Lemma hash_line_reads (level : nat) (text : list N) :
  (1 <= level <= 6)%nat -> no_trailing_space (repeat HASH level ++ [SP] ++ text) ->
  is_code_fence (repeat HASH level ++ [SP] ++ text) = false
  /\ top_heading_level (repeat HASH level ++ [SP] ++ text) = Some level.
Proof.
  intros Hl Hts. set (h := repeat HASH level ++ [SP] ++ text) in *.
  assert (exists t, h = HASH :: t) as (t & Eh) by (apply hash_line_head; lia).
  assert (strip h = h) as Hs.
  { unfold strip. unfold no_trailing_space in Hts. rewrite Hts, Eh. reflexivity. }
  split.
  - unfold is_code_fence. rewrite Hs, Eh. reflexivity.
  - unfold top_heading_level.
    assert (split_blockquote_prefix h = ([], h)) as -> by (rewrite Eh; reflexivity).
    rewrite Hs. unfold re_heading_level. subst h. cbn [app].
    rewrite take_while_hash_line, repeat_length.
    destruct (Nat.leb_spec 1 level); [|lia].
    destruct (Nat.leb_spec level 6); [|lia]. cbn [andb].
    rewrite drop_app_len by (rewrite repeat_length; reflexivity).
    reflexivity.
Qed.

Lemma count_h1_finalize_headings hc (h1 c : bool) (ls : list (list N)) :
  Forall line_ok ls ->
  (count_h1 c (finalize_headings hc h1 c ls) <= if h1 then 0 else 1)%nat.
Proof.
  intros Hok. revert hc h1 c.
  induction Hok as [|l ls Hl Hls IH]; intros hc h1 c;
    [destruct h1; cbn; lia|].
  pose proof (finalize_headings_ok hc h1 c (l :: ls)
                (proj2 (Forall_cons _ _ _) (conj Hl Hls))) as Hout.
  cbn [finalize_headings] in *.
  destruct (is_code_fence l) eqn:F;
    [cbn [count_h1]; rewrite F; apply IH|].
  destruct c; [cbn [count_h1]; rewrite F; apply IH|].
  pose proof (eq_refl (top_heading_level l)) as Hk.
  unfold top_heading_level at 2 in Hk.
  destruct (split_blockquote_prefix l) as [q b].
  destruct (re_heading_level (strip b)) as [[k e]|] eqn:E.
  2:{ cbn [count_h1]. rewrite F. unfold is_top_h1. rewrite Hk.
      specialize (IH hc h1 false). lia. }
  destruct (negb (nonempty q)).
  2:{ cbn [count_h1]. rewrite F. unfold is_top_h1. rewrite Hk.
      specialize (IH hc h1 false). lia. }
  pose proof (final_level_bounds _ (strip_heading_trailing_punct (strip b))
                _ _ h1 E) as [Hlv0 Hlv].
  cbv zeta in Hlv0, Hlv.
  match type of Hlv0 with
  | (1 <= ?lv <= 6)%nat => set (lv0 := lv) in *; clearbody lv0
  end.
  assert (exists level h1',
            (if (lv0 =? 1)%nat
             then if h1 then (2%nat, h1) else (lv0, true)
             else (lv0, h1)) = (level, h1')
            /\ (1 <= level <= 6)%nat
            /\ ((if level =? 1 then 1 else 0) + (if h1' then 0 else 1)
                <= if h1 then 0 else 1)%nat) as (level & h1' & Hlev & Hb & Hc).
  { destruct (lv0 =? 1)%nat eqn:L1.
    - destruct h1; [exists 2%nat, true|exists lv0, true];
        (split; [reflexivity|]); rewrite ?L1; cbn; lia.
    - exists lv0, h1. split; [reflexivity|]. rewrite L1. split; [lia|].
      destruct h1; lia. }
  rewrite Hlev in Hout |- *. apply Forall_cons in Hout as [[Hts _] _].
  match type of Hts with
  | no_trailing_space (repeat HASH level ++ [SP] ++ ?t) =>
    destruct (hash_line_reads level t Hb Hts) as [Hf Hr]
  end.
  cbn [count_h1]. rewrite Hf. unfold is_top_h1. rewrite Hr.
  match goal with
  | |- context [finalize_headings ?hc' h1' false ls] =>
    specialize (IH hc' h1' false)
  end.
  destruct level as [|[|n]]; [lia| |]; cbn [Nat.eqb] in Hc; lia.
Qed.

(** X2 (MD025): outside fenced code, at most one line of the output is a
    first-level heading without a blockquote prefix. *)
Theorem X2_at_most_one_h1 (U : UnicodeTables) (md : list N) :
  (count_h1 false (normalize_lines U (source_lines md)) <= 1)%nat.
Proof.
  unfold normalize_lines.
  apply (count_h1_finalize_headings ∅ false false).
  apply trim_blankish_ok, collapse_blank_runs_ok, blank_after_lists_ok,
    main_pass_ok; [constructor|apply source_lines_ok].
Qed.

(** ** The URL step only adds angle brackets (MD034) *)

Lemma without_angles_app (a b : list N) :
  without_angles (a ++ b) = without_angles a ++ without_angles b.
Proof. apply List.filter_app. Qed.

Lemma without_angles_re_sub (fuel : nat) (prev : option N) (s : list N) :
  without_angles (re_sub_bare_url_from fuel prev s) = without_angles s.
Proof.
  revert prev s. induction fuel as [|f IH]; intros prev s; [reflexivity|].
  cbn [re_sub_bare_url_from]. destruct s as [|c t]; [reflexivity|].
  destruct (if url_lookbehind prev then bare_url_match (c :: t) else None)
    as [n|].
  - rewrite !without_angles_app, IH.
    change (without_angles [LT]) with (@nil N).
    change (without_angles [GT]) with (@nil N).
    cbn [app]. rewrite <- without_angles_app, take_drop. reflexivity.
  - change (c :: re_sub_bare_url_from f (Some c) t)
      with ([c] ++ re_sub_bare_url_from f (Some c) t).
    change (c :: t) with ([c] ++ t).
    rewrite !without_angles_app, IH. reflexivity.
Qed.

(** X3 (MD034): wrapping the bare URLs of a body changes nothing but angle
    brackets: with every [<] and [>] taken out, the body reads as before,
    and it never gets shorter. *)
Theorem X3_url_step_only_adds_angle_brackets (body : list N) :
  without_angles (wrap_bare_urls body) = without_angles body
  /\ (length body <= length (wrap_bare_urls body))%nat.
Proof.
  split.
  - unfold wrap_bare_urls. destruct (_ || _); [|reflexivity].
    apply without_angles_re_sub.
  - unfold wrap_bare_urls. destruct (_ || _); [|lia].
    unfold re_sub_bare_url. generalize (length body) at 2 as fuel.
    generalize (@None N) as prev. intros prev fuel. revert prev body.
    induction fuel as [|f IH]; intros prev s; [cbn; lia|].
    cbn [re_sub_bare_url_from]. destruct s as [|c t]; [cbn; lia|].
    destruct (if url_lookbehind prev then bare_url_match (c :: t) else None)
      as [n|].
    + specialize (IH (last (take n (c :: t))) (drop n (c :: t))).
      assert (length (c :: t)
              = length (take n (c :: t)) + length (drop n (c :: t)))%nat as E
        by (rewrite <- length_app, take_drop; reflexivity).
      rewrite !length_app. cbn [length] in *. lia.
    + specialize (IH (Some c) t). cbn [length]. lia.
Qed.

(** ** Invariants of the list state *)

Section ListState.

Context (U : UnicodeTables).

Lemma tables_coherent_empty st :
  ol_counters st = ∅ -> last_list_type st = ∅ -> tables_coherent st.
Proof.
  intros Hc Ht indent. rewrite Hc, Ht, !lookup_empty.
  repeat split; try discriminate.
  intros [x Hx]. discriminate.
Qed.

Lemma tables_coherent_same st st' :
  ol_counters st' = ol_counters st -> last_list_type st' = last_list_type st ->
  ol_marker_width st' = ol_marker_width st ->
  tables_coherent st -> tables_coherent st'.
Proof. intros Hc Ht Hw H indent. rewrite Hc, Ht, Hw. apply H. Qed.

Lemma track_indent_stack_tables st body :
  let st' := fst (track_indent_stack U st body) in
  ol_counters st' = ol_counters st /\ last_list_type st' = last_list_type st
  /\ ol_marker_width st' = ol_marker_width st.
Proof.
  unfold track_indent_stack.
  destruct (re_list U body).
  - destruct (_ && _); cbn; auto.
  - destruct (last _); [destruct (_ <? _)%nat|]; cbn; auto.
Qed.

Lemma renumber_coherent st body :
  tables_coherent st -> tables_coherent (fst (renumber U st body)).
Proof.
  intros H. unfold renumber.
  destruct (re_ol_marker U body) as [[[[i num] d] e]|].
  - cbn [fst]. intros j. cbn [ol_counters last_list_type ol_marker_width set_tables].
    destruct (decide (i = j)) as [->|Hne].
    + rewrite !lookup_insert_eq. repeat split; eauto.
      intros n [= <-]. destruct (negb _); lia.
    + rewrite !lookup_insert_ne by exact Hne. apply H.
  - destruct (re_list U body); [|apply tables_coherent_empty; reflexivity].
    cbn [fst]. set (i := take (leading_ws_len body) body). intros j.
    cbn [ol_counters last_list_type ol_marker_width set_tables].
    destruct (decide (i = j)) as [->|Hne].
    + rewrite lookup_insert_eq, !lookup_delete_eq. repeat split; try discriminate.
      intros [x Hx]. discriminate.
    + rewrite lookup_insert_ne, !lookup_delete_ne by exact Hne. apply H.
Qed.

Lemma emit_heading_coherent st out body next :
  tables_coherent (fst (emit_heading st out body next)).
Proof.
  unfold emit_heading. cbn [fst].
  destruct (re_heading_level (strip body)) as [[k e]|];
    apply tables_coherent_empty; reflexivity.
Qed.

Lemma emit_line_coherent st out q body :
  tables_coherent st -> tables_coherent (fst (emit_line U st out q body)).
Proof.
  intros H. unfold emit_line.
  pose proof (track_indent_stack_tables st body) as (Hc & Ht & Hw).
  destruct (track_indent_stack U st body) as [st1 b1]. cbn [fst] in Hc, Ht, Hw.
  pose proof (renumber_coherent st1 b1
                (tables_coherent_same st st1 Hc Ht Hw H)) as H2.
  destruct (renumber U st1 b1) as [st2 b2]. cbn [fst] in H2.
  destruct (re_list U b2); cbn [fst];
    (eapply tables_coherent_same; [| | |exact H2]); reflexivity.
Qed.

Lemma main_step_coherent st out raw_src next :
  tables_coherent st -> tables_coherent (fst (main_step U st out raw_src next)).
Proof.
  intros H. unfold main_step.
  destruct (is_code_fence raw_src);
    [cbn [fst]; eapply tables_coherent_same; [| | |exact H]; reflexivity|].
  destruct (in_code st); [exact H|]. cbn [orb].
  destruct (is_blank _);
    [cbn [fst]; eapply tables_coherent_same; [| | |exact H]; reflexivity|].
  destruct (inline_rewrites U st _) as [q body].
  destruct (is_orphan_marker U body); [exact H|].
  destruct (_ && _); [apply emit_heading_coherent|apply emit_line_coherent, H].
Qed.

Lemma main_pass_coherent st out src :
  tables_coherent st -> tables_coherent (fst (main_pass U st out src)).
Proof.
  revert st out. induction src as [|l src IH]; intros st out H; [exact H|].
  cbn [main_pass].
  pose proof (main_step_coherent st out l (head src) H) as H1.
  destruct (main_step U st out l (head src)) as [st1 out1].
  apply IH, H1.
Qed.

(** X4: after any number of source lines the three tables of the list
    tracker agree: a bucket has a counter exactly when its last item was an
    ordered one, that counter is at least 1, and the marker width of such a
    bucket is on record, so that the defaults of lines 533 and 595 are
    never taken for a bucket whose last item was ordered. *)
Theorem X4_list_tables_stay_coherent (src : list (list N)) :
  tables_coherent (fst (main_pass U init_state [] src)).
Proof.
  apply main_pass_coherent, tables_coherent_empty; reflexivity.
Qed.


Lemma strictly_increasing_prefix (a b : list nat) :
  strictly_increasing (a ++ b) = true -> strictly_increasing a = true.
Proof.
  induction a as [|x a IH]; [reflexivity|]. cbn [app strictly_increasing].
  destruct a as [|y a].
  - reflexivity.
  - cbn [app]. intros H. apply andb_true_iff in H as [H1 H2].
    rewrite H1. exact (IH H2).
Qed.

Lemma strictly_increasing_snoc (l : list nat) (x : nat) :
  strictly_increasing l = true ->
  (forall top, last l = Some top -> (top < x)%nat) ->
  strictly_increasing (l ++ [x]) = true.
Proof.
  induction l as [|a l IH]; [reflexivity|]. intros Hs Hl.
  cbn [app strictly_increasing] in *.
  destruct l as [|b l].
  - cbn [app]. rewrite andb_true_r. apply Nat.ltb_lt, Hl. reflexivity.
  - cbn [app] in *. apply andb_true_iff in Hs as [H1 H2]. rewrite H1.
    apply IH; [exact H2|]. intros top Ht. apply Hl.
    rewrite last_cons, Ht. reflexivity.
Qed.

Lemma stack_from_zero_prefix (a b : list nat) :
  stack_from_zero (a ++ b) = true -> stack_from_zero a = true.
Proof.
  destruct a as [|x a]; [reflexivity|]. cbn [app stack_from_zero].
  intros H. apply andb_true_iff in H as [H1 H2]. rewrite H1.
  exact (strictly_increasing_prefix (x :: a) b H2).
Qed.

(** The bottom of the stack is never popped. *)
Lemma pop_deeper_keeps_bottom (indent_len : nat) (stack : list nat) :
  stack_from_zero stack = true -> stack <> [] ->
  pop_deeper indent_len stack <> [].
Proof.
  intros H Hne Hp. unfold pop_deeper in Hp.
  apply drop_while_end_nil_iff in Hp.
  destruct stack as [|a s]; [contradiction|].
  cbn [stack_from_zero] in H. apply andb_true_iff in H as [Ha _].
  apply Nat.eqb_eq in Ha. subst a.
  cbn [forallb] in Hp. apply andb_true_iff in Hp as [Hp _].
  apply Nat.ltb_lt in Hp. lia.
Qed.

Lemma pop_deeper_from_zero (indent_len : nat) (stack : list nat) :
  stack_from_zero stack = true -> stack_from_zero (pop_deeper indent_len stack) = true.
Proof.
  intros H. unfold pop_deeper.
  destruct (drop_while_end_split (fun top => (indent_len <? top)%nat) stack)
    as (t & E & _).
  rewrite E in H. exact (stack_from_zero_prefix _ _ H).
Qed.

Lemma stack_from_zero_push (stack : list nat) (x : nat) :
  stack_from_zero stack = true ->
  (stack = [] -> x = 0%nat) ->
  (forall top, last stack = Some top -> (top < x)%nat) ->
  stack_from_zero (stack ++ [x]) = true.
Proof.
  intros H H0 Hl. destruct stack as [|a s].
  - rewrite (H0 eq_refl). reflexivity.
  - cbn [app stack_from_zero] in *. apply andb_true_iff in H as [H1 H2].
    rewrite H1. exact (strictly_increasing_snoc (a :: s) x H2 Hl).
Qed.

Lemma track_indent_stack_from_zero st body :
  stack_from_zero (list_indent_stack st) = true ->
  stack_from_zero (list_indent_stack (fst (track_indent_stack U st body))) = true.
Proof.
  intros H. unfold track_indent_stack.
  destruct (re_list U body).
  2:{ destruct (last _); [destruct (_ <? _)%nat|]; cbn; auto. }
  set (indent0 := leading_ws_len body). clearbody indent0.
  destruct (list_indent_stack st) as [|a s] eqn:Es.
  - (* the first item of a list goes to column 0 *)
    assert (exists b, (if (0 <? indent0)%nat && negb (bool_decide (@nil nat <> []))
                       then (drop indent0 body, 0%nat) else (body, indent0))
                      = (b, 0%nat)) as (b & ->).
    { destruct (0 <? indent0)%nat eqn:Z.
      - eexists. reflexivity.
      - apply Nat.ltb_ge in Z. exists body. cbn. f_equal. lia. }
    reflexivity.
  - assert ((if (0 <? indent0)%nat && negb (bool_decide (a :: s <> []))
             then (drop indent0 body, 0%nat) else (body, indent0))
            = (body, indent0)) as ->.
    { rewrite bool_decide_true by discriminate. rewrite andb_false_r. reflexivity. }
    pose proof (pop_deeper_from_zero indent0 (a :: s) H) as Hp.
    pose proof (pop_deeper_keeps_bottom indent0 (a :: s) H ltac:(discriminate)) as Hn.
    destruct (last (pop_deeper indent0 (a :: s))) as [top|] eqn:L.
    + destruct (top <? indent0)%nat eqn:T; cbn [fst list_indent_stack set_stack];
        [|exact Hp].
      apply stack_from_zero_push; [exact Hp|contradiction|].
      intros top' Ht. rewrite L in Ht. injection Ht as <-.
      apply Nat.ltb_lt, T.
    + apply last_None in L. contradiction.
Qed.

Lemma renumber_stack st body :
  list_indent_stack (fst (renumber U st body)) = list_indent_stack st.
Proof.
  unfold renumber.
  destruct (re_ol_marker U body) as [[[[i num] d] e]|]; [reflexivity|].
  destruct (re_list U body); reflexivity.
Qed.

Lemma main_step_from_zero st out raw_src next :
  stack_from_zero (list_indent_stack st) = true ->
  stack_from_zero (list_indent_stack (fst (main_step U st out raw_src next))) = true.
Proof.
  intros H. unfold main_step.
  destruct (is_code_fence raw_src); [exact H|].
  destruct (in_code st); [exact H|]. cbn [orb].
  destruct (is_blank _); [exact H|].
  destruct (inline_rewrites U st _) as [q body].
  destruct (is_orphan_marker U body); [exact H|].
  destruct (_ && _).
  - unfold emit_heading. cbn [fst].
    destruct (re_heading_level _) as [[k e]|]; reflexivity.
  - unfold emit_line.
    pose proof (track_indent_stack_from_zero st
                  (normalize_list_indent U st q body) H) as H1.
    destruct (track_indent_stack U st _) as [st1 b1]. cbn [fst] in H1.
    pose proof (renumber_stack st1 b1) as H2.
    destruct (renumber U st1 b1) as [st2 b2]. cbn [fst] in H2.
    destruct (re_list U b2); cbn [fst list_indent_stack set_prev_list];
      rewrite H2; exact H1.
Qed.

(** X5: after any number of source lines the indentation stack is empty,
    or it starts at column 0 and grows strictly towards its top: the first
    item of a list is moved to column 0 whatever its indentation, and the
    bottom entry is never popped. *)
Theorem X5_indent_stack_grows_from_zero (src : list (list N)) :
  stack_from_zero (list_indent_stack (fst (main_pass U init_state [] src))) = true.
Proof.
  assert (forall st out,
            stack_from_zero (list_indent_stack st) = true ->
            stack_from_zero
              (list_indent_stack (fst (main_pass U st out src))) = true) as H.
  { induction src as [|l src' IH]; intros st out H; [exact H|].
    cbn [main_pass].
    pose proof (main_step_from_zero st out l (head src') H) as H1.
    destruct (main_step U st out l (head src')) as [st1 out1].
    apply IH, H1. }
  apply H. reflexivity.
Qed.

End ListState.

(** ** The characters of the source lines *)

Lemma In_replace_crlf (s : list N) c : In c (replace_crlf s) -> In c s.
Proof.
  assert (forall n (s : list N), (length s <= n)%nat ->
            In c (replace_crlf s) -> In c s) as H.
  { clear s. induction n as [|n IH]; intros s Hn.
    - destruct s; [intros []|simpl in Hn; lia].
    - destruct s as [|a [|b t]]; [intros []|exact id|].
      cbn [replace_crlf length] in *.
      destruct ((a =? CR) && (b =? NL)) eqn:E.
      + apply andb_true_iff in E as [_ Eb]. apply N.eqb_eq in Eb. subst b.
        intros [<-|Hin]; [right; left; reflexivity|].
        right. right. apply IH; [lia|exact Hin].
      + intros [<-|Hin]; [left; reflexivity|].
        right. apply IH; [cbn [length]; lia|exact Hin]. }
  exact (H (length s) s (le_n _)).
Qed.

Lemma In_replace_cr (s : list N) c :
  In c (replace_cr s) -> c <> CR /\ (c = NL \/ In c s).
Proof.
  unfold replace_cr. intros H. apply in_map_iff in H as (x & E & Hx).
  destruct (x =? CR) eqn:Ex.
  - subst c. split; [discriminate|left; reflexivity].
  - subst c. apply N.eqb_neq in Ex. split; [exact Ex|right; exact Hx].
Qed.

Lemma In_split_nl (s l : list N) c : In l (split_nl s) -> In c l -> In c s /\ c <> NL.
Proof.
  revert l. induction s as [|a t IH]; intros l Hl Hc.
  - cbn in Hl. destruct Hl as [<-|[]]. destruct Hc.
  - cbn [split_nl] in Hl. destruct (N.eqb_spec a NL) as [->|Hne].
    + destruct Hl as [<-|Hl]; [destruct Hc|].
      destruct (IH l Hl Hc). split; [right|]; assumption.
    + destruct (split_nl t) as [|l0 ls] eqn:E.
      * destruct Hl as [<-|[]]. destruct Hc as [<-|[]].
        split; [left; reflexivity|exact Hne].
      * destruct Hl as [<-|Hl].
        -- destruct Hc as [<-|Hc]; [split; [left; reflexivity|exact Hne]|].
           destruct (IH l0 (or_introl eq_refl) Hc). split; [right|]; assumption.
        -- destruct (IH l (or_intror Hl) Hc). split; [right|]; assumption.
Qed.

(** Every character of a source line is a character of the document, and
    it is neither a carriage return nor a line feed. *)
Lemma In_source_lines (md l : list N) c :
  In l (source_lines md) -> In c l -> In c md /\ c <> CR /\ c <> NL.
Proof.
  unfold source_lines. intros Hl Hc.
  apply list_elem_of_In, list_elem_of_fmap in Hl as (l0 & -> & Hl0).
  apply list_elem_of_In in Hl0.
  apply In_drop_while_end_inv in Hc.
  destruct (In_split_nl _ _ _ Hl0 Hc) as [Hin Hnl].
  apply In_replace_cr in Hin as [Hcr [->|Hin]]; [contradiction|].
  apply In_replace_crlf in Hin. auto.
Qed.

(** ** Blank documents *)

Lemma source_lines_blank (md : list N) :
  forallb is_space md = true -> all_empty (source_lines md).
Proof.
  intros H. rewrite forallb_forall in H.
  unfold all_empty, source_lines. apply Forall_fmap, Forall_forall.
  intros l0 Hl0. apply list_elem_of_In in Hl0. cbn.
  apply drop_while_end_nil_iff, forallb_forall. intros c Hc.
  destruct (In_split_nl _ _ _ Hl0 Hc) as [Hin _].
  apply In_replace_cr in Hin as [_ [->|Hin]]; [reflexivity|].
  apply H, In_replace_crlf, Hin.
Qed.

Section BlankDocuments.

Context (U : UnicodeTables).

Lemma main_pass_empty_lines st out (src : list (list N)) :
  all_empty src -> in_code st = false ->
  snd (main_pass U st out src) = out ++ src.
Proof.
  intros H. revert st out.
  induction H as [|l src -> _ IH]; intros st out Hc;
    [cbn; rewrite app_nil_r; reflexivity|].
  cbn [main_pass]. unfold main_step.
  change (is_code_fence []) with false. rewrite Hc. cbn [orb].
  change (is_blank (expandtabs 4 [])) with true. cbv iota.
  rewrite IH by exact Hc. rewrite <- app_assoc. reflexivity.
Qed.

Lemma blank_after_lists_empty_lines (ls : list (list N)) :
  all_empty ls -> blank_after_lists U false ls = ls.
Proof.
  induction 1 as [|l ls -> _ IH]; [reflexivity|].
  cbn [blank_after_lists]. change (is_code_fence []) with false. cbv iota.
  change (is_list U []) with false. cbv iota. cbn [app]. rewrite IH. reflexivity.
Qed.

Lemma collapse_blank_runs_blankish n (ls : list (list N)) :
  Forall (fun l => is_blankish l = true) ls ->
  Forall (fun l => is_blankish l = true) (collapse_blank_runs n ls).
Proof.
  intros H. revert n. induction H as [|l ls Hl _ IH]; intros n; [constructor|].
  cbn [collapse_blank_runs]. rewrite Hl.
  destruct (1 <? S n)%nat; [apply IH|].
  constructor; [|apply IH]. exact (is_blankish_kept_blank l Hl).
Qed.

Lemma trim_blankish_all_blankish (ls : list (list N)) :
  Forall (fun l => is_blankish l = true) ls -> trim_blankish ls = [].
Proof.
  intros H. unfold trim_blankish.
  rewrite drop_while_all; [reflexivity|].
  apply forallb_forall. intros l Hl.
  rewrite Forall_forall in H. apply H, list_elem_of_In, Hl.
Qed.

(** X6: a document of white space only (blank lines, spaces, tabs, line
    breaks of any kind, or nothing at all) is normalized to a single line
    feed. *)
Theorem X6_blank_document_gives_one_newline (md : list N) :
  forallb is_space md = true -> normalize U md = [NL].
Proof.
  intros H. pose proof (source_lines_blank md H) as He.
  unfold normalize, normalize_lines.
  rewrite (main_pass_empty_lines init_state [] _ He eq_refl). cbn [app].
  rewrite (blank_after_lists_empty_lines _ He).
  rewrite trim_blankish_all_blankish; [reflexivity|].
  apply collapse_blank_runs_blankish.
  eapply Forall_impl; [exact He|]. intros l ->. reflexivity.
Qed.

End BlankDocuments.

Lemma X6_blank_document_witness :
  normalize ascii_tables (py " \t\n\r\n  \n") = [NL].
Proof.
  apply (X6_blank_document_gives_one_newline ascii_tables (py " \t\n\r\n  \n")).
  reflexivity.
Defined.

(** ** The characters of the output *)

Section Alphabet.

Context (U : UnicodeTables) (P : N -> Prop).

Hypothesis P_written : forall c, is_written c = true -> P c.

Lemma P_SP : P SP. Proof. apply P_written. reflexivity. Qed.
Lemma P_NL : P NL. Proof. apply P_written. reflexivity. Qed.
Lemma P_HASH : P HASH. Proof. apply P_written. reflexivity. Qed.
Lemma P_DASH : P DASH. Proof. apply P_written. reflexivity. Qed.
Lemma P_LT : P LT. Proof. apply P_written. reflexivity. Qed.
Lemma P_GT : P GT. Proof. apply P_written. reflexivity. Qed.

Lemma all_repeat c n : P c -> Forall P (repeat c n).
Proof. intros H. induction n; constructor; assumption. Qed.

Lemma all_digits_of_uint d : Forall P (digits_of_uint d).
Proof.
  induction d; cbn [digits_of_uint]; constructor; try assumption;
    apply P_written; reflexivity.
Qed.

Lemma all_str_of_nat n : Forall P (str_of_nat n).
Proof. apply all_digits_of_uint. Qed.

Lemma all_rstrip s : Forall P s -> Forall P (rstrip s).
Proof. apply Forall_drop_while_end. Qed.

Lemma all_lstrip s : Forall P s -> Forall P (lstrip s).
Proof. apply Forall_drop_while. Qed.

Lemma all_strip s : Forall P s -> Forall P (strip s).
Proof. intros H. apply all_lstrip, all_rstrip, H. Qed.

Lemma all_app_inv (a b : list N) : Forall P (a ++ b) -> Forall P a /\ Forall P b.
Proof. apply Forall_app. Qed.

Ltac solve_all :=
  repeat first
    [ assumption | apply Forall_nil_2 | apply Forall_app_2 | apply Forall_cons_2
    | apply P_SP | apply P_HASH | apply P_DASH | apply P_LT | apply P_GT
    | apply all_repeat | apply all_str_of_nat | apply all_lstrip
    | apply all_strip | apply all_rstrip | apply Forall_drop
    | apply Forall_take | apply Forall_take_while | apply Forall_drop_while
    | apply Forall_drop_while_end ].

Lemma all_expandtabs_from n col s :
  Forall P s -> Forall P (expandtabs_from n col s).
Proof.
  intros H. revert col. induction H as [|c t Hc Ht IH]; intros col;
    cbn [expandtabs_from]; [constructor|].
  destruct (c =? TAB).
  - destruct n; [apply IH|]. apply Forall_app_2; [apply all_repeat, P_SP|apply IH].
  - destruct ((c =? NL) || (c =? CR)); (constructor; [assumption|apply IH]).
Qed.

Lemma all_split_blockquote_prefix ln :
  Forall P ln ->
  Forall P (fst (split_blockquote_prefix ln))
  /\ Forall P (snd (split_blockquote_prefix ln)).
Proof.
  intros H. unfold split_blockquote_prefix.
  pose proof (Forall_drop_while is_space P ln H) as Hd.
  destruct (drop_while is_space ln) as [|c r] eqn:E; cbn [fst snd];
    [split; solve_all|].
  destruct (c =? GT); cbn [fst snd]; split; solve_all.
Qed.

Lemma all_re_sub_bare_url_from fuel prev s :
  Forall P s -> Forall P (re_sub_bare_url_from fuel prev s).
Proof.
  revert prev s. induction fuel as [|f IH]; intros prev s H;
    cbn [re_sub_bare_url_from]; [assumption|].
  destruct s as [|c t]; [constructor|].
  destruct (if url_lookbehind prev then bare_url_match (c :: t) else None) as [n|].
  - apply Forall_app_2; [solve_all|]. apply Forall_app_2; [solve_all|].
    apply Forall_app_2; [solve_all|]. apply IH. solve_all.
  - apply Forall_cons in H as [Hc Ht]. constructor; [exact Hc|apply IH, Ht].
Qed.

Lemma all_wrap_bare_urls body : Forall P body -> Forall P (wrap_bare_urls body).
Proof.
  intros H. unfold wrap_bare_urls.
  destruct (_ || _); [apply all_re_sub_bare_url_from|]; assumption.
Qed.

Lemma all_marker_rewrite (pre body : list N) e :
  Forall P pre -> Forall P body ->
  Forall P (pre ++ [DASH; SP] ++ lstrip (drop e body)).
Proof. intros Hp Hb. solve_all. Qed.

Lemma all_re_marker mark s indent e :
  re_marker mark s = Some (indent, e) -> Forall P s -> Forall P indent.
Proof.
  intros H Hs. apply re_marker_inv in H as (c & ws & tail & _ & -> & _).
  solve_all.
Qed.

Lemma all_re_ol_marker s indent num d e :
  re_ol_marker U s = Some (indent, num, d, e) -> Forall P s ->
  Forall P indent /\ Forall P num /\ P d.
Proof.
  intros H Hs.
  apply re_ol_marker_inv in H as (ws & tail & E & _).
  rewrite E in Hs.
  apply Forall_app in Hs as [Hi Hs]. apply Forall_app in Hs as [Hn Hs].
  apply Forall_cons in Hs as [Hd _]. auto.
Qed.

Lemma all_promote_bold_only st q body :
  Forall P body -> Forall P (promote_bold_only U st q body).
Proof.
  intros H. unfold promote_bold_only.
  destruct (nonempty q); [exact H|].
  destruct (re_bold_only_text body) as [t|] eqn:E; [|exact H].
  destruct (_ && _); [|exact H].
  unfold re_bold_only_text in E.
  destruct (_ && _) in E; [|discriminate]. injection E as <-.
  solve_all.
Qed.

Lemma all_normalize_ul_marker body :
  Forall P body -> Forall P (normalize_ul_marker body).
Proof.
  intros H. unfold normalize_ul_marker.
  assert (Forall P (match re_ul_marker body with
                    | Some (indent, e) => indent ++ [DASH; SP] ++ lstrip (drop e body)
                    | None => body end)) as H1.
  { destruct (re_ul_marker body) as [[i e]|] eqn:E; [|exact H].
    apply all_marker_rewrite; [|exact H].
    exact (all_re_marker _ _ _ _ E H). }
  destruct (re_ul_dash _) as [[i e]|] eqn:E; [|exact H1].
  apply all_marker_rewrite; [|exact H1].
  exact (all_re_marker _ _ _ _ E H1).
Qed.

Lemma all_normalize_ul_indent st q body indent e :
  Forall P body -> Forall P (normalize_ul_indent U st q body indent e).
Proof.
  intros H. unfold normalize_ul_indent.
  repeat match goal with
  | |- context [if ?b then _ else _] => destruct b
  | |- context [match ?o with Some _ => _ | None => _ end] => destruct o as [[? ?]|]
  | |- Forall P (_ ++ [DASH; SP] ++ lstrip (drop _ _)) => apply all_marker_rewrite
  | |- Forall P (repeat SP _) => apply all_repeat, P_SP
  | |- Forall P [] => constructor
  | |- Forall P ([DASH; SP] ++ lstrip (drop _ _)) => apply (all_marker_rewrite [])
  | |- _ => assumption
  end.
Qed.

Lemma all_normalize_list_indent st q body :
  Forall P body -> Forall P (normalize_list_indent U st q body).
Proof.
  intros H. unfold normalize_list_indent.
  destruct (re_ol_marker U body) as [[[[i n] d] e]|] eqn:E.
  - destruct (all_re_ol_marker _ _ _ _ _ E H) as (Hi & Hn & Hd).
    destruct (_ <=? _)%nat; [solve_all|].
    destruct (_ <=? _)%nat; solve_all.
  - destruct (re_ul_dash body) as [[i e]|]; [|exact H].
    apply all_normalize_ul_indent, H.
Qed.

Lemma all_inline_rewrites st raw :
  Forall P raw ->
  Forall P (fst (inline_rewrites U st raw))
  /\ Forall P (snd (inline_rewrites U st raw)).
Proof.
  intros H. unfold inline_rewrites.
  destruct (all_split_blockquote_prefix raw H) as [Hq Hb].
  destruct (split_blockquote_prefix raw) as [q b]. cbn [fst snd] in *.
  split; [exact Hq|].
  apply all_normalize_ul_marker, all_promote_bold_only, all_wrap_bare_urls, Hb.
Qed.

Lemma all_track_indent_stack st body :
  Forall P body -> Forall P (snd (track_indent_stack U st body)).
Proof.
  intros H. unfold track_indent_stack.
  destruct (re_list U body).
  - destruct (_ && _); cbn [snd]; solve_all.
  - destruct (last _); [destruct (_ <? _)%nat|]; exact H.
Qed.

Lemma all_renumber st body :
  Forall P body -> Forall P (snd (renumber U st body)).
Proof.
  intros H. unfold renumber.
  destruct (re_ol_marker U body) as [[[[i n] d] e]|] eqn:E.
  - destruct (all_re_ol_marker _ _ _ _ _ E H) as (Hi & Hn & Hd). cbn [snd].
    solve_all.
  - destruct (re_list U body); exact H.
Qed.

Lemma all_quote_blank q : Forall P q -> Forall P (quote_blank q).
Proof. intros H. unfold quote_blank. destruct (nonempty q); solve_all. Qed.

Lemma all_strip_heading_trailing_punct s :
  Forall P s -> Forall P (strip_heading_trailing_punct s).
Proof.
  intros H. unfold strip_heading_trailing_punct.
  destruct (re_heading_level (rstrip s)) as [[k e]|]; [|assumption].
  cbn [app]. unfold rstrip_by. solve_all.
Qed.

Lemma all_lines_snoc (out : list (list N)) l :
  Forall (Forall P) out -> Forall P l -> Forall (Forall P) (out ++ [l]).
Proof. intros Ho Hl. apply Forall_app_2; [exact Ho|]. constructor; [exact Hl|constructor]. Qed.

Lemma all_emit_heading st out body next :
  Forall (Forall P) out -> Forall P body ->
  Forall (Forall P) (snd (emit_heading st out body next)).
Proof.
  intros Ho Hb. unfold emit_heading.
  set (out1 := match last out with
               | Some l => if negb (is_blankish l) then out ++ [[]] else out
               | None => out end).
  assert (Forall (Forall P) out1) as H1.
  { subst out1. destruct (last out); [destruct (negb _)|];
      auto using all_lines_snoc. }
  assert (Forall P (strip_heading_trailing_punct (strip body))) as Hh
    by (apply all_strip_heading_trailing_punct, all_strip, Hb).
  destruct next as [nxt|]; cbn [snd]; [destruct (negb (is_blank nxt))|];
    auto using all_lines_snoc.
Qed.

Lemma all_emit_line st out q body :
  Forall (Forall P) out -> Forall P q -> Forall P body ->
  Forall (Forall P) (snd (emit_line U st out q body)).
Proof.
  intros Ho Hq Hb. unfold emit_line.
  pose proof (all_track_indent_stack st body Hb) as H1.
  destruct (track_indent_stack U st body) as [st1 b1]. cbn [snd] in H1.
  pose proof (all_renumber st1 b1 H1) as H2.
  destruct (renumber U st1 b1) as [st2 b2]. cbn [snd] in H2.
  assert (Forall P (rstrip (q ++ b2))) as Hl by solve_all.
  destruct (re_list U b2); cbn [snd]; [|auto using all_lines_snoc].
  apply all_lines_snoc; [|exact Hl].
  destruct (last out); [destruct (_ && _)|];
    auto using all_lines_snoc, all_quote_blank.
Qed.

Lemma all_main_step st out raw_src next :
  Forall (Forall P) out -> Forall P raw_src ->
  Forall (Forall P) (snd (main_step U st out raw_src next)).
Proof.
  intros Ho Hr. unfold main_step.
  destruct (is_code_fence raw_src); [cbn [snd]; auto using all_lines_snoc|].
  destruct (in_code st); [cbn [snd]; auto using all_lines_snoc|].
  cbn [orb].
  destruct (is_blank _); [cbn [snd]; auto using all_lines_snoc|].
  assert (Forall P (expandtabs 4 raw_src)) as He
    by (apply all_expandtabs_from, Hr).
  destruct (all_inline_rewrites st _ He) as [Hq Hb].
  destruct (inline_rewrites U st (expandtabs 4 raw_src)) as [q b].
  cbn [fst snd] in Hq, Hb.
  destruct (is_orphan_marker U b);
    [cbn [snd]; auto using all_lines_snoc, all_quote_blank|].
  pose proof (all_normalize_list_indent st q b Hb) as Hn.
  destruct (_ && _); [apply all_emit_heading|apply all_emit_line]; assumption.
Qed.

Lemma all_main_pass st out src :
  Forall (Forall P) out -> Forall (Forall P) src -> Forall (Forall P) (snd (main_pass U st out src)).
Proof.
  intros Ho Hs. revert st out Ho.
  induction Hs as [|l src Hl Hs IH]; intros st out Ho; cbn [main_pass];
    [exact Ho|].
  pose proof (all_main_step st out l (head src) Ho Hl) as H1.
  destruct (main_step U st out l (head src)) as [st' out']. apply IH, H1.
Qed.

Lemma all_blank_after_lists c out :
  Forall (Forall P) out -> Forall (Forall P) (blank_after_lists U c out).
Proof.
  intros H. revert c. induction H as [|l out Hl Ho IH]; intros c;
    cbn [blank_after_lists]; [constructor|].
  destruct (is_code_fence l); [constructor; [exact Hl|apply IH]|].
  destruct c; [constructor; [exact Hl|apply IH]|].
  constructor; [exact Hl|]. apply Forall_app_2; [|apply IH].
  destruct (is_list U l); [|constructor].
  destruct (drop_while is_blankish out) as [|after ?]; [constructor|].
  destruct (negb (is_list U after)); [|constructor].
  destruct out as [|r ?]; [constructor|].
  destruct (negb (is_blankish r)); [|constructor].
  constructor; [|constructor].
  apply all_quote_blank. exact (proj1 (all_split_blockquote_prefix l Hl)).
Qed.

Lemma all_collapse_blank_runs n out :
  Forall (Forall P) out -> Forall (Forall P) (collapse_blank_runs n out).
Proof.
  intros H. revert n. induction H as [|l out Hl Ho IH]; intros n;
    cbn [collapse_blank_runs]; [constructor|].
  destruct (is_blankish l); [|constructor; [exact Hl|apply IH]].
  destruct (1 <? S n)%nat; [apply IH|].
  constructor; [|apply IH].
  destruct (startswith _ _); [exact Hl|constructor].
Qed.

Lemma all_trim_blankish out : Forall (Forall P) out -> Forall (Forall P) (trim_blankish out).
Proof.
  intros H. unfold trim_blankish.
  apply Forall_drop_while_end, Forall_drop_while, H.
Qed.

Lemma all_finalize_headings hc h1 c out :
  Forall (Forall P) out -> Forall (Forall P) (finalize_headings hc h1 c out).
Proof.
  intros H. revert hc h1 c.
  induction H as [|l out Hl Ho IH]; intros hc h1 c; cbn [finalize_headings];
    [constructor|].
  destruct (is_code_fence l); [constructor; [exact Hl|apply IH]|].
  destruct c; [constructor; [exact Hl|apply IH]|].
  destruct (all_split_blockquote_prefix l Hl) as [_ Hb].
  destruct (split_blockquote_prefix l) as [q b]. cbn [snd] in Hb.
  destruct (re_heading_level (strip b)) as [[k e]|];
    [|constructor; [exact Hl|apply IH]].
  destruct (negb (nonempty q)); [|constructor; [exact Hl|apply IH]].
  set (s2 := strip_heading_trailing_punct (strip b)).
  assert (Forall P s2) as Hs2
    by (apply all_strip_heading_trailing_punct, all_strip, Hb).
  set (text := strip (match re_heading_level s2 with
                      | Some (_, e2) => drop e2 s2
                      | None => drop e (strip b) end)).
  assert (Forall P text) as Ht.
  { subst text. destruct (re_heading_level s2) as [[k2 e2]|]; solve_all. }
  clearbody text.
  match goal with
  | |- context [if (?lv =? 1)%nat then _ else _] =>
    destruct (if (lv =? 1)%nat
              then if h1 then (2%nat, h1) else (lv, true)
              else (lv, h1)) as [level h1']
  end.
  constructor; [|apply IH].
  destruct (1 <? _)%nat; [|solve_all].
  apply Forall_app_2; [solve_all|]. apply Forall_app_2; [solve_all|].
  apply Forall_app_2; [exact Ht|]. apply Forall_app_2; [|apply Forall_app_2].
  - constructor; [apply P_written; reflexivity|constructor].
  - apply all_str_of_nat.
  - constructor; [apply P_written; reflexivity|constructor].
Qed.

Lemma all_join_nl (ls : list (list N)) : Forall (Forall P) ls -> Forall P (join_nl ls).
Proof.
  induction 1 as [|l ls Hl Hls IH]; [constructor|].
  cbn [join_nl]. destruct ls as [|l' ls']; [exact Hl|].
  apply Forall_app_2; [exact Hl|]. constructor; [apply P_NL|exact IH].
Qed.

(** Whatever holds of the characters the engine writes and of the
    characters of the source lines holds of every character of the
    output. *)
Lemma all_normalize (md : list N) :
  Forall (Forall P) (source_lines md) -> Forall P (normalize U md).
Proof.
  intros H. unfold normalize, normalize_lines.
  apply Forall_app_2; [|constructor; [apply P_NL|constructor]].
  apply all_rstrip, all_join_nl, all_finalize_headings, all_trim_blankish,
    all_collapse_blank_runs, all_blank_after_lists, all_main_pass;
    [constructor|exact H].
Qed.

End Alphabet.

(** X7: every character of the output is a character of the input or one
    of the characters the engine writes (line feed, space, [#], [-], [<],
    [>], an ASCII digit, a full-width parenthesis), and no carriage return
    is left. *)
Theorem X7_output_characters (U : UnicodeTables) (md : list N) :
  Forall (fun c => c <> CR /\ (is_written c = true \/ In c md)) (normalize U md).
Proof.
  apply all_normalize.
  - intros c Hc. split; [|left; exact Hc].
    intros ->. discriminate.
  - apply Forall_forall. intros l Hl. apply Forall_forall. intros c Hc.
    apply list_elem_of_In in Hl. apply list_elem_of_In in Hc.
    destruct (In_source_lines md l c Hl Hc) as (Hin & Hcr & _).
    split; [exact Hcr|right; exact Hin].
Qed.

(** * Properties of the warning block *)

(** ** Searching a text *)

Lemma startswith_app_r (p a b : list N) :
  startswith p a = true -> startswith p (a ++ b) = true.
Proof.
  revert a. induction p as [|x p IH]; intros a; [reflexivity|].
  destruct a as [|y a]; [discriminate|]. cbn [startswith app].
  intros H. apply andb_true_iff in H as [-> H]. exact (IH a H).
Qed.

(** A pattern without the character [c] cannot start before a [c] and
    reach over it. *)
Lemma startswith_app_sep (sub a b : list N) c :
  ~ In c sub -> startswith sub (a ++ c :: b) = startswith sub a.
Proof.
  revert a. induction sub as [|x sub IH]; intros a Hc; [reflexivity|].
  destruct a as [|y a]; cbn [startswith app].
  - destruct (N.eqb_spec x c) as [->|]; [|reflexivity].
    exfalso. apply Hc. left. reflexivity.
  - rewrite IH; [reflexivity|]. intros H. apply Hc. right. exact H.
Qed.

Lemma str_find_nil_none (sub : list N) : sub <> [] -> str_find sub [] = None.
Proof. destruct sub; [congruence|reflexivity]. Qed.

Lemma str_find_app_sep (sub a b : list N) c :
  sub <> [] -> ~ In c sub ->
  str_find sub (a ++ c :: b)
  = match str_find sub a with
    | Some i => Some i
    | None => option_map (fun j => (length a + 1 + j)%nat) (str_find sub b)
    end.
Proof.
  intros Hne Hc. induction a as [|x a IH].
  - rewrite (str_find_nil_none sub Hne). cbn [app str_find].
    pose proof (startswith_app_sep sub [] b c Hc) as E. cbn [app] in E.
    rewrite E. destruct sub as [|s0 sub']; [congruence|]. cbn [startswith].
    destruct (str_find (s0 :: sub') b); reflexivity.
  - cbn [app str_find].
    pose proof (startswith_app_sep sub (x :: a) b c Hc) as E. cbn [app] in E.
    rewrite E. destruct (startswith sub (x :: a)); [reflexivity|].
    rewrite IH. destruct (str_find sub a) as [i|]; [reflexivity|].
    destruct (str_find sub b); reflexivity.
Qed.

Lemma str_find_startswith (sub s : list N) :
  startswith sub s = true -> str_find sub s = Some 0%nat.
Proof. intros H. destruct s; cbn [str_find]; rewrite H; reflexivity. Qed.

Lemma contains_str_find (sub s : list N) :
  contains sub s = false <-> str_find sub s = None.
Proof.
  induction s as [|x s IH]; cbn [contains str_find].
  - rewrite orb_false_r. destruct (startswith sub []); split; congruence.
  - destruct (startswith sub (x :: s)); cbn [orb]; [split; congruence|].
    rewrite IH. destruct (str_find sub s); cbn; split; congruence.
Qed.

Lemma contains_app_l (sub a b : list N) :
  contains sub (a ++ b) = false -> contains sub a = false.
Proof.
  induction a as [|x a IH]; cbn [contains app].
  - intros H. destruct (startswith sub []) eqn:E; [|rewrite orb_false_r; reflexivity].
    pose proof (startswith_app_r sub [] b E) as E'. cbn [app] in E'.
    destruct b; cbn [contains] in H; rewrite E' in H; discriminate.
  - intros H. apply orb_false_iff in H as [H1 H2].
    rewrite (IH H2), orb_false_r.
    destruct (startswith sub (x :: a)) eqn:E; [|reflexivity].
    pose proof (startswith_app_r sub (x :: a) b E) as E'. cbn [app] in E'.
    congruence.
Qed.

Lemma contains_app_r (sub a b : list N) :
  contains sub (a ++ b) = false -> contains sub b = false.
Proof.
  induction a as [|x a IH]; [exact id|]. cbn [contains app].
  intros H. apply orb_false_iff in H as [_ H]. exact (IH H).
Qed.

Lemma contains_strip (sub s : list N) :
  contains sub s = false -> contains sub (strip s) = false.
Proof.
  intros H. unfold strip, lstrip, rstrip, rstrip_by.
  destruct (drop_while_end_split is_space s) as (t & E & _).
  rewrite E in H. apply contains_app_l in H.
  rewrite <- (take_drop_while is_space (drop_while_end is_space s)) in H.
  exact (contains_app_r _ _ _ H).
Qed.

Lemma str_find_cons_other (sub t : list N) x y :
  sub = y :: drop 1 sub -> x <> y ->
  str_find sub (x :: t) = option_map S (str_find sub t).
Proof.
  intros E Hne. cbn [str_find]. rewrite E. cbn [startswith].
  destruct (N.eqb_spec y x) as [->|]; [congruence|]. reflexivity.
Qed.

Lemma lstrip_nl_idem (s : list N) : lstrip_nl (lstrip_nl s) = lstrip_nl s.
Proof.
  unfold lstrip_nl. apply drop_while_fixed.
  destruct (drop_while (N.eqb NL) s) as [|c t] eqn:E; [exact I|].
  exact (drop_while_head _ _ _ _ E).
Qed.

Lemma strip_lstrip_nl (s : list N) : strip (lstrip_nl s) = strip s.
Proof.
  unfold lstrip_nl.
  rewrite <- (take_drop_while (N.eqb NL) s) at 2.
  set (nls := take_while (N.eqb NL) s). set (s' := drop_while (N.eqb NL) s).
  assert (forallb is_space nls = true) as Hn.
  { apply forallb_forall. intros c Hc.
    pose proof (forallb_take_while (N.eqb NL) s) as H.
    rewrite forallb_forall in H. specialize (H c Hc).
    apply N.eqb_eq in H. subst c. reflexivity. }
  unfold strip, lstrip, rstrip, rstrip_by. rewrite drop_while_end_app.
  destruct (drop_while_end is_space s') as [|a r] eqn:E.
  - apply drop_while_end_nil_iff in Hn. rewrite Hn. reflexivity.
  - rewrite drop_while_app by exact Hn. reflexivity.
Qed.

Lemma join_nl_block (a b c d rest : list N) :
  join_nl [a; b; c; d; []; []] ++ rest
  = (a ++ NL :: b ++ NL :: c ++ [NL]) ++ d ++ NL :: NL :: rest.
Proof.
  cbn [join_nl]. repeat (rewrite <- ?app_assoc; cbn [app]). reflexivity.
Qed.

Lemma contains_startswith (p s : list N) :
  startswith p s = true -> contains p s = true.
Proof. intros H. destruct s; cbn [contains]; rewrite H; reflexivity. Qed.

(** A text that starts with a block of four lines, the last of them the
    pattern [sub], which is in none of the first three and holds no line
    feed: [sub] is first found where the fourth line starts. *)
Lemma str_find_fourth_line (sub a b c rest : list N) :
  sub <> [] -> ~ In NL sub ->
  str_find sub a = None -> str_find sub b = None -> str_find sub c = None ->
  str_find sub ((a ++ NL :: b ++ NL :: c ++ [NL]) ++ sub ++ NL :: NL :: rest)
  = Some (length (a ++ NL :: b ++ NL :: c ++ [NL])).
Proof.
  intros Hne Hnl Ha Hb Hc.
  replace ((a ++ NL :: b ++ NL :: c ++ [NL]) ++ sub ++ NL :: NL :: rest)
    with (a ++ NL :: b ++ NL :: c ++ NL :: sub ++ NL :: NL :: rest)
    by (repeat (rewrite <- ?app_assoc; cbn [app]); reflexivity).
  rewrite (str_find_app_sep sub a _ NL Hne Hnl), Ha.
  rewrite (str_find_app_sep sub b _ NL Hne Hnl), Hb.
  rewrite (str_find_app_sep sub c _ NL Hne Hnl), Hc.
  rewrite (str_find_startswith sub _ (startswith_app sub _)).
  cbn [option_map]. f_equal.
  repeat (rewrite length_app; cbn [length]). lia.
Qed.

Lemma str_find_after_two (sub msg : list N) x y h :
  sub = h :: drop 1 sub -> x <> h -> y <> h ->
  str_find sub msg = None -> str_find sub (x :: y :: msg) = None.
Proof.
  intros E Hx Hy Hm.
  rewrite (str_find_cons_other sub (y :: msg) x h E Hx).
  rewrite (str_find_cons_other sub msg y h E Hy), Hm. reflexivity.
Qed.

Module warning_facts.

Import readme_warning.

Lemma end_marker_no_nl : ~ In NL WARNING_END.
Proof.
  assert (forallb (fun c => negb (c =? NL)) WARNING_END = true) as H
    by (vm_compute; reflexivity).
  rewrite forallb_forall in H. intros Hin. specialize (H NL Hin). discriminate.
Qed.

Lemma end_marker_head : WARNING_END = 60 :: drop 1 WARNING_END.
Proof. vm_compute. reflexivity. Qed.

Lemma end_marker_not_nil : WARNING_END <> [].
Proof. rewrite end_marker_head. discriminate. Qed.

Lemma end_not_in_start : str_find WARNING_END WARNING_START = None.
Proof. vm_compute. reflexivity. Qed.

Lemma end_not_in_kind : str_find WARNING_END (py "> [!WARNING]") = None.
Proof. vm_compute. reflexivity. Qed.

Lemma quote_mark : py "> " = [62; 32].
Proof. vm_compute. reflexivity. Qed.

Lemma default_message_clean : contains WARNING_END default_message = false.
Proof. vm_compute. reflexivity. Qed.

Lemma message_text_clean (message : list N) :
  contains WARNING_END message = false ->
  str_find WARNING_END (message_text message) = None.
Proof.
  intros H. apply contains_str_find. unfold message_text.
  destruct (nonempty (strip message));
    [apply contains_strip, H|apply default_message_clean].
Qed.

(** The block, followed by any text, cut at its end marker. *)
Lemma build_block_app (message rest : list N) :
  _build_block message ++ rest
  = (WARNING_START ++ NL :: py "> [!WARNING]" ++ NL
       :: (py "> " ++ message_text message) ++ [NL])
    ++ WARNING_END ++ NL :: NL :: rest.
Proof.
  exact (join_nl_block WARNING_START (py "> [!WARNING]")
           (py "> " ++ message_text message) WARNING_END rest).
Qed.

Lemma str_find_end_in_block (message rest : list N) :
  contains WARNING_END message = false ->
  str_find WARNING_END (_build_block message ++ rest)
  = Some (length (WARNING_START ++ NL :: py "> [!WARNING]" ++ NL
                    :: (py "> " ++ message_text message) ++ [NL])).
Proof.
  intros H. rewrite build_block_app.
  apply str_find_fourth_line.
  - exact end_marker_not_nil.
  - exact end_marker_no_nl.
  - exact end_not_in_start.
  - exact end_not_in_kind.
  - rewrite quote_mark.
    apply (str_find_after_two WARNING_END _ 62 32 60 end_marker_head);
      [discriminate|discriminate|].
    exact (message_text_clean message H).
Qed.

(** Clearing a text that starts with a block leaves what follows the
    block, without its leading line feeds. *)
Lemma strip_block_of_block (message rest : list N) :
  contains WARNING_END message = false ->
  _strip_block (_build_block message ++ rest) = lstrip_nl rest.
Proof.
  intros H.
  pose proof (str_find_end_in_block message rest H) as Hf.
  pose proof (build_block_app message rest) as E.
  set (pre := WARNING_START ++ NL :: py "> [!WARNING]" ++ NL
                :: (py "> " ++ message_text message) ++ [NL]) in *.
  assert (startswith WARNING_START (_build_block message ++ rest) = true) as Hs.
  { rewrite E. subst pre. rewrite <- !app_assoc. apply startswith_app. }
  clearbody pre.
  set (text := _build_block message ++ rest) in *. clearbody text.
  unfold _strip_block.
  rewrite (contains_startswith _ _ Hs). cbn [negb].
  rewrite (str_find_startswith _ _ Hs), Hf.
  rewrite take_0. cbn [last nonempty]. subst text.
  rewrite <- drop_drop, (drop_app_len pre _ _ eq_refl).
  rewrite (drop_app_len WARNING_END _ _ eq_refl).
  change (drop_while (N.eqb NL) (NL :: NL :: rest)) with (lstrip_nl rest).
  apply lstrip_nl_idem.
Qed.

End warning_facts.

(** X8: setting the warning twice is setting it once, with the message of
    the second call: as long as the first message does not hold the end
    marker, [_ensure_block_at_top] applied to its own result replaces the
    block and leaves the rest of the text as it was. *)
Theorem X8_warning_set_twice (text message1 message2 : list N) :
  contains readme_warning.WARNING_END message1 = false ->
  readme_warning._ensure_block_at_top
    (readme_warning._ensure_block_at_top text message1) message2
  = readme_warning._ensure_block_at_top text message2.
Proof.
  intros H. unfold readme_warning._ensure_block_at_top at 2.
  set (t := readme_warning._strip_block text).
  destruct (nonempty (strip t)) eqn:B; cbn [negb].
  - unfold readme_warning._ensure_block_at_top.
    rewrite (warning_facts.strip_block_of_block message1 _ H).
    rewrite lstrip_nl_idem, strip_lstrip_nl. fold t. rewrite B. cbn [negb].
    rewrite lstrip_nl_idem. reflexivity.
  - unfold readme_warning._ensure_block_at_top.
    rewrite <- (app_nil_r (readme_warning._build_block message1)).
    rewrite (warning_facts.strip_block_of_block message1 [] H).
    fold t. rewrite B. reflexivity.
Qed.

Lemma X8_warning_set_twice_witness :
  readme_warning._ensure_block_at_top
    (readme_warning._ensure_block_at_top (py "\n# Title\n\ntext\n") (py " first "))
    (py "second")
  = readme_warning._ensure_block_at_top (py "\n# Title\n\ntext\n") (py "second").
Proof.
  apply (X8_warning_set_twice (py "\n# Title\n\ntext\n") (py " first ") (py "second")).
  vm_compute. reflexivity.
Defined.

(** X9: clearing after setting gives back the text the block was put in
    front of: the text without the block it had, without its leading line
    feeds, and empty when it was blank.  The message must not hold the end
    marker. *)
Theorem X9_warning_clear_after_set (text message : list N) :
  contains readme_warning.WARNING_END message = false ->
  readme_warning._strip_block (readme_warning._ensure_block_at_top text message)
  = if nonempty (strip (readme_warning._strip_block text))
    then lstrip_nl (readme_warning._strip_block text) else [].
Proof.
  intros H. unfold readme_warning._ensure_block_at_top.
  set (t := readme_warning._strip_block text).
  destruct (nonempty (strip t)); cbn [negb].
  - rewrite (warning_facts.strip_block_of_block message _ H).
    apply lstrip_nl_idem.
  - rewrite <- (app_nil_r (readme_warning._build_block message)).
    exact (warning_facts.strip_block_of_block message [] H).
Qed.

Lemma X9_warning_clear_after_set_witness :
  readme_warning._strip_block
    (readme_warning._ensure_block_at_top (py "\n# Title\n\ntext\n") (py "broken"))
  = py "# Title\n\ntext\n".
Proof.
  exact (X9_warning_clear_after_set (py "\n# Title\n\ntext\n") (py "broken") eq_refl).
Defined.

(** * Properties of the helpers of the converter *)

(** ** Lines of a review *)

Lemma lstrip_strip (s : list N) : lstrip (strip s) = strip s.
Proof.
  unfold strip, lstrip. apply drop_while_fixed.
  destruct (drop_while is_space (rstrip s)) as [|c t] eqn:E; [exact I|].
  exact (drop_while_head _ _ _ _ E).
Qed.

Lemma lstrip_drop_while (s : list N) :
  lstrip (drop_while is_space s) = drop_while is_space s.
Proof.
  unfold lstrip. apply drop_while_fixed.
  destruct (drop_while is_space s) as [|c t] eqn:E; [exact I|].
  exact (drop_while_head _ _ _ _ E).
Qed.

Lemma no_trailing_space_tail (c : N) (t : list N) :
  t <> [] -> no_trailing_space (c :: t) -> no_trailing_space t.
Proof.
  rewrite !no_trailing_space_last. intros Ht H x Hx. apply H.
  rewrite last_cons, Hx. reflexivity.
Qed.

Lemma drop_while_space_not_nil (t : list N) :
  t <> [] -> no_trailing_space t -> drop_while is_space t <> [].
Proof.
  intros Ht H E.
  pose proof (take_drop_while is_space t) as Htd. rewrite E, app_nil_r in Htd.
  pose proof (forallb_take_while is_space t) as Hall. rewrite Htd in Hall.
  apply drop_while_end_nil_iff in Hall.
  unfold no_trailing_space, rstrip, rstrip_by in H. congruence.
Qed.

Lemma strip_bullet_clean (line : list N) :
  line <> [] -> lstrip line = line -> rstrip line = line ->
  strip_bullet line <> [] /\ lstrip (strip_bullet line) = strip_bullet line
  /\ rstrip (strip_bullet line) = strip_bullet line
  /\ forall c, In c (strip_bullet line) -> In c line.
Proof.
  intros Hne Hl Hr. unfold strip_bullet.
  destruct line as [|c t]; [congruence|].
  destruct (is_bullet c && starts_with_space t) eqn:B; [|auto].
  apply andb_true_iff in B as [_ B].
  assert (t <> []) as Ht by (destruct t; [discriminate|discriminate]).
  pose proof (no_trailing_space_tail c t Ht Hr) as Hts.
  repeat split.
  - exact (drop_while_space_not_nil t Ht Hts).
  - apply lstrip_drop_while.
  - exact (no_trailing_space_drop_while is_space t Hts).
  - intros x Hx. right. exact (In_drop_while_inv _ _ _ Hx).
Qed.

(** ** Words of a text *)

Lemma split_ws_parts (s : list N) :
  concat (split_ws s) = visible_part s
  /\ Forall (fun w => w <> [] /\ forallb is_visible w = true) (split_ws s).
Proof.
  induction s as [|c t [IHc IHf]]; [split; [reflexivity|constructor]|].
  cbn [split_ws]. unfold visible_part in *. cbn [List.filter]. unfold is_visible at 1 3.
  destruct (is_space c) eqn:Sc; cbn [negb]; [split; assumption|].
  assert (is_visible c = true) as Vc by (unfold is_visible; rewrite Sc; reflexivity).
  destruct t as [|d t'].
  - split; [reflexivity|].
    constructor; [|constructor]. split; [discriminate|]. cbn. rewrite Vc. reflexivity.
  - destruct (is_space d) eqn:Sd.
    + split; [cbn [concat app]; rewrite IHc; reflexivity|].
      constructor; [|exact IHf]. split; [discriminate|]. cbn. rewrite Vc. reflexivity.
    + destruct (split_ws (d :: t')) as [|w ws] eqn:E.
      * split; [cbn [concat app] in *; rewrite <- IHc; reflexivity|].
        constructor; [|constructor]. split; [discriminate|]. cbn. rewrite Vc. reflexivity.
      * split; [cbn [concat app] in *; rewrite <- IHc; reflexivity|].
        apply Forall_cons in IHf as [[_ Hw] Hws].
        constructor; [|exact Hws]. split; [discriminate|].
        cbn [forallb]. rewrite Vc, Hw. reflexivity.
Qed.

Lemma visible_part_app (a b : list N) :
  visible_part (a ++ b) = visible_part a ++ visible_part b.
Proof. apply List.filter_app. Qed.

Lemma visible_part_all (s : list N) :
  forallb is_visible s = true -> visible_part s = s.
Proof.
  induction s as [|c t IH]; [reflexivity|]. cbn [forallb]. intros H.
  apply andb_true_iff in H as [Hc Ht]. unfold visible_part in *.
  cbn [List.filter]. rewrite Hc, (IH Ht). reflexivity.
Qed.

Lemma visible_part_spaces (s : list N) :
  forallb is_space s = true -> visible_part s = [].
Proof.
  induction s as [|c t IH]; [reflexivity|]. cbn [forallb]. intros H.
  apply andb_true_iff in H as [Hc Ht]. unfold visible_part in *.
  cbn [List.filter]. unfold is_visible at 1. rewrite Hc, (IH Ht). reflexivity.
Qed.

Lemma visible_part_drop_while (s : list N) :
  visible_part (drop_while is_space s) = visible_part s.
Proof.
  rewrite <- (take_drop_while is_space s) at 2.
  rewrite visible_part_app, (visible_part_spaces _ (forallb_take_while _ _)).
  reflexivity.
Qed.

Lemma visible_part_strip (s : list N) : visible_part (strip s) = visible_part s.
Proof.
  unfold strip, lstrip. rewrite visible_part_drop_while.
  unfold rstrip, rstrip_by.
  destruct (drop_while_end_split is_space s) as (t & E & Ht).
  rewrite E at 2. rewrite visible_part_app, (visible_part_spaces t Ht), app_nil_r.
  reflexivity.
Qed.

Lemma strip_visible (s : list N) : forallb is_visible s = true -> strip s = s.
Proof.
  intros H. unfold strip, lstrip, rstrip, rstrip_by.
  assert (forall c, In c s -> is_space c = false) as Hs.
  { intros c Hc. rewrite forallb_forall in H. specialize (H c Hc).
    unfold is_visible in H. destruct (is_space c); [discriminate|reflexivity]. }
  rewrite drop_while_end_fixed.
  - apply drop_while_fixed. destruct s as [|c t]; [exact I|].
    apply Hs. left. reflexivity.
  - intros c Hc. apply Hs. apply list_elem_of_In, last_Some_elem_of, Hc.
Qed.

Lemma forallb_visible_concat (ws : list (list N)) :
  Forall (fun w => w <> [] /\ forallb is_visible w = true) ws ->
  forallb is_visible (concat ws) = true.
Proof.
  induction 1 as [|w ws [_ Hw] _ IH]; [reflexivity|].
  cbn [concat]. rewrite forallb_app, Hw, IH. reflexivity.
Qed.

(** ** Components of a badge address *)

Lemma replace_char_flat_map (old : N) (new : list N) (f : N -> list N) (s : list N) :
  replace_char old new (flat_map f s)
  = flat_map (fun x => replace_char old new (f x)) s.
Proof.
  unfold replace_char. induction s as [|c t IH]; [reflexivity|].
  cbn [flat_map]. rewrite flat_map_app, IH. reflexivity.
Qed.

Lemma flat_map_ext_all {A B} (f g : A -> list B) (s : list A) :
  (forall x, f x = g x) -> flat_map f s = flat_map g s.
Proof. intros H. induction s as [|c t IH]; [reflexivity|]. cbn. rewrite H, IH. reflexivity. Qed.

(** The three replacements, one after the other, encode the text
    character by character. *)
Lemma shields_replacements (s : list N) :
  replace_char SP (py "%20")
    (replace_char PERCENT (py "%25") (replace_char DASH (py "--") s))
  = flat_map shields_code s.
Proof.
  unfold replace_char at 3.
  rewrite !replace_char_flat_map. apply flat_map_ext_all. intros c.
  unfold shields_code.
  destruct (N.eqb_spec c DASH) as [->|Hd]; [reflexivity|].
  destruct (N.eqb_spec c PERCENT) as [->|Hp]; [reflexivity|].
  unfold replace_char. cbn [flat_map app].
  apply N.eqb_neq in Hp. rewrite Hp. cbn [flat_map app].
  destruct (c =? SP); reflexivity.
Qed.

Lemma shields_code_cases (c : N) :
  (c = DASH /\ shields_code c = [45; 45])
  \/ (c = PERCENT /\ shields_code c = [37; 50; 53])
  \/ (c = SP /\ shields_code c = [37; 50; 48])
  \/ (c <> DASH /\ c <> PERCENT /\ c <> SP /\ shields_code c = [c]).
Proof.
  unfold shields_code.
  destruct (N.eqb_spec c DASH) as [->|Hd]; [left; auto|].
  destruct (N.eqb_spec c PERCENT) as [->|Hp]; [right; left; auto|].
  destruct (N.eqb_spec c SP) as [->|Hs]; [right; right; left; auto|].
  right. right. right. auto.
Qed.

Lemma shields_code_head_inj (x y : N) (r1 r2 : list N) :
  shields_code x ++ r1 = shields_code y ++ r2 -> x = y /\ r1 = r2.
Proof.
  intros H.
  destruct (shields_code_cases x) as [[Hx E]|[[Hx E]|[[Hx E]|(Hd & Hp & Hs & E)]]];
    destruct (shields_code_cases y)
      as [[Hy E']|[[Hy E']|[[Hy E']|(Hd' & Hp' & Hs' & E')]]];
    rewrite E, E' in H; cbn [app] in H; subst;
    try (injection H as H1 H2; try injection H2 as H2 H3;
         try injection H3 as H3 H4);
    try discriminate; try congruence; try (split; congruence);
    try (split; [reflexivity|assumption]);
    exfalso; unfold DASH, PERCENT, SP in *; congruence.
Qed.

(** The code is a prefix code: two encoded texts are equal only when the
    texts are. *)
Lemma flat_map_shields_code_inj (a b : list N) :
  flat_map shields_code a = flat_map shields_code b -> a = b.
Proof.
  revert b. induction a as [|x a IH]; intros [|y b]; cbn [flat_map].
  - reflexivity.
  - intros H. exfalso.
    destruct (shields_code_cases y) as [[_ E]|[[_ E]|[[_ E]|(_ & _ & _ & E)]]];
      rewrite E in H; discriminate.
  - intros H. exfalso.
    destruct (shields_code_cases x) as [[_ E]|[[_ E]|[[_ E]|(_ & _ & _ & E)]]];
      rewrite E in H; discriminate.
  - intros H. apply shields_code_head_inj in H as [-> H].
    f_equal. exact (IH b H).
Qed.

Lemma flat_map_shields_code_nil (s : list N) :
  flat_map shields_code s = [] -> s = [].
Proof. exact (flat_map_shields_code_inj s []). Qed.

Lemma shields_code_no_space (s : list N) : ~ In SP (flat_map shields_code s).
Proof.
  intros H. apply in_flat_map in H as (c & _ & H).
  destruct (shields_code_cases c) as [[_ E]|[[_ E]|[[_ E]|(_ & _ & Hs & E)]]];
    rewrite E in H; cbn in H;
    repeat (destruct H as [H|H]; [try discriminate H; congruence|]);
    exact H.
Qed.

Section HelperFacts.

Context (str_of_container : value -> list N) (U : UnicodeTables).

(** X10: every line [_split_nonempty_lines] returns can stand after a list
    marker: it is not empty, it has no white space at either end, and it
    holds neither a line feed nor a carriage return. *)
Theorem X10_split_nonempty_lines_are_clean (text : value) :
  Forall clean_line (_split_nonempty_lines str_of_container text).
Proof.
  unfold _split_nonempty_lines. apply Forall_forall. intros l Hl.
  apply list_elem_of_In, in_flat_map in Hl as (raw & Hraw & Hl).
  destruct (nonempty (strip raw)) eqn:Hn; cbn [negb] in Hl; [|destruct Hl].
  destruct Hl as [<-|[]].
  assert (strip raw <> []) as Hne by (destruct (strip raw); [discriminate|discriminate]).
  destruct (strip_bullet_clean (strip raw) Hne (lstrip_strip raw)
              (strip_no_trailing_space raw)) as (H1 & H2 & H3 & H4).
  assert (forall c, In c (strip_bullet (strip raw)) -> c <> NL /\ c <> CR) as Hc.
  { intros c Hin. apply H4, In_strip_inv in Hin.
    destruct (In_split_nl _ _ _ Hraw Hin) as [Hin' Hnl].
    apply In_replace_cr in Hin' as [Hcr _]. auto. }
  repeat split; try assumption.
  - intros Hin. exact (proj1 (Hc _ Hin) eq_refl).
  - intros Hin. exact (proj2 (Hc _ Hin) eq_refl).
Qed.

(** X11: [_split_label_value_tail] loses nothing but white space: the
    label and the value together are the visible characters of the text.
    Without a value the label is the stripped text; with a value, the
    value is a number (digits, an optional fraction, an optional percent
    sign) and the label is not empty and holds no white space. *)
Theorem X11_split_label_value_tail_keeps_text (text : value) :
  let '(label, val) := _split_label_value_tail str_of_container U text in
  visible_part (label ++ val) = visible_part (_s str_of_container text)
  /\ (val = [] -> label = strip (_s str_of_container text))
  /\ (val <> [] ->
      is_number_tail U val = true /\ label <> []
      /\ forallb is_visible label = true).
Proof.
  unfold _split_label_value_tail.
  pose proof (visible_part_strip (_s str_of_container text)) as Hv.
  remember (strip (_s str_of_container text)) as s eqn:Es. clear Es.
  assert (visible_part (s ++ []) = visible_part (_s str_of_container text)
          /\ (@nil N = [] -> s = s)
          /\ (@nil N <> [] ->
              is_number_tail U [] = true /\ s <> []
              /\ forallb is_visible s = true)) as Hplain.
  { rewrite app_nil_r. split; [exact Hv|]. split; [reflexivity|].
    intros Hx. contradiction Hx. reflexivity. }
  destruct (nonempty s) eqn:Hn; cbn [negb].
  2:{ destruct s; [exact Hplain|discriminate Hn]. }
  destruct (length (split_ws s) <? 2)%nat eqn:Hlen; [exact Hplain|].
  apply Nat.ltb_ge in Hlen.
  destruct (is_number_tail U (strip (List.last (split_ws s) []))) eqn:Ht;
    [|exact Hplain].
  clear Hplain.
  destruct (split_ws_parts s) as [Hc Hf].
  assert (split_ws s <> []) as Hne
    by (destruct (split_ws s); [simpl in Hlen; lia|discriminate]).
  pose proof (app_removelast_last [] Hne) as Hsplit.
  remember (removelast (split_ws s)) as init eqn:Ei. clear Ei.
  remember (List.last (split_ws s) []) as lst eqn:El. clear El.
  rewrite Hsplit in Hf, Hc, Hlen. clear Hsplit Hne.
  apply Forall_app in Hf as [Hi Hl].
  apply Forall_cons in Hl as [[Hl0 Hl1] _].
  assert (init <> []) as Hin.
  { intros E. rewrite E in Hlen. simpl in Hlen. lia. }
  pose proof (forallb_visible_concat init Hi) as Hci.
  rewrite (strip_visible lst Hl1) in *.
  rewrite (strip_visible (concat init) Hci).
  assert (concat init <> []) as Hcn.
  { destruct init as [|w ws]; [congruence|].
    apply Forall_cons in Hi as [[Hw _] _]. cbn [concat].
    destruct w; [congruence|discriminate]. }
  assert (nonempty (concat init) = true) as ->
    by (destruct (concat init); [congruence|reflexivity]).
  split; [|split].
  - rewrite <- Hv, <- Hc, concat_app. cbn [concat].
    rewrite app_nil_r. apply visible_part_all.
    rewrite forallb_app, Hci, Hl1. reflexivity.
  - intros E. congruence.
  - intros _. split; [exact Ht|]. split; [exact Hcn|exact Hci].
Qed.

Lemma encode_shields_component_eq (text : value) :
  _encode_shields_component str_of_container text
  = flat_map shields_code (strip (_s str_of_container text)).
Proof.
  unfold _encode_shields_component.
  destruct (strip (_s str_of_container text)) as [|c t] eqn:E; [reflexivity|].
  cbn [nonempty negb]. apply shields_replacements.
Qed.

(** X12: [_encode_shields_component] tells texts apart: two texts with the
    same encoding are the same once stripped; the doubled dash and the two
    percent escapes cannot be mistaken for one another or for plain
    characters. *)
Theorem X12_encode_shields_component_injective (a b : value) :
  _encode_shields_component str_of_container a
  = _encode_shields_component str_of_container b ->
  strip (_s str_of_container a) = strip (_s str_of_container b).
Proof.
  rewrite !encode_shields_component_eq. apply flat_map_shields_code_inj.
Qed.

Lemma encode_shields_component_no_space (text : value) :
  ~ In SP (_encode_shields_component str_of_container text).
Proof. rewrite encode_shields_component_eq. apply shields_code_no_space. Qed.

Lemma no_space_app (a b : list N) :
  ~ In SP a -> ~ In SP b -> ~ In SP (a ++ b).
Proof. intros Ha Hb H. apply in_app_or in H as [H|H]; auto. Qed.

Lemma no_space_dash : ~ In SP (py "-").
Proof. intros [H|[]]. discriminate H. Qed.

(** X13: the address of a badge holds no space, whatever the label, the
    message and the colour are: the badge is the alternative text and the
    address [https://img.shields.io/badge/] followed by a path in which
    every space has been escaped. *)
Theorem X13_badge_address_has_no_space (alt label : list N)
    (message color : option (list N)) :
  exists path,
    _render_shields_badge str_of_container alt label message color
    = py "![" ++ alt ++ py "](" ++ py "https://img.shields.io/badge/" ++ path ++ py ")"
    /\ ~ In SP path.
Proof.
  unfold _render_shields_badge.
  destruct message as [m|], color as [c|];
    (eexists; split; [reflexivity|]);
    repeat first [ apply encode_shields_component_no_space
                 | apply no_space_dash
                 | apply no_space_app ].
Qed.

(** ** Signatures *)

Lemma render_one_author_quote_key (a b : list (list N * value)) (indent : list N) :
  (strip (_s str_of_container (dict_get a (py "name"))),
   strip (_s str_of_container (dict_get a (py "link"))),
   strip (_s str_of_container (dict_get a (py "date"))))
  = (strip (_s str_of_container (dict_get b (py "name"))),
     strip (_s str_of_container (dict_get b (py "link"))),
     strip (_s str_of_container (dict_get b (py "date")))) ->
  _render_one_author_quote str_of_container a indent
  = _render_one_author_quote str_of_container b indent.
Proof.
  intros H. injection H as Hn Hl Hd. unfold _render_one_author_quote.
  rewrite Hn, Hl, Hd. reflexivity.
Qed.

Lemma render_quotes_key (la lb : list (list (list N * value))) (indent : list N) :
  map (fun a => (strip (_s str_of_container (dict_get a (py "name"))),
                 strip (_s str_of_container (dict_get a (py "link"))),
                 strip (_s str_of_container (dict_get a (py "date"))))) la
  = map (fun a => (strip (_s str_of_container (dict_get a (py "name"))),
                   strip (_s str_of_container (dict_get a (py "link"))),
                   strip (_s str_of_container (dict_get a (py "date"))))) lb ->
  map (fun a => _render_one_author_quote str_of_container a indent) la
  = map (fun a => _render_one_author_quote str_of_container a indent) lb.
Proof.
  revert lb. induction la as [|a la IH]; intros [|b lb] H; try discriminate H;
    [reflexivity|].
  cbn [map] in *. injection H as H1 H2 H3 H.
  f_equal; [|exact (IH lb H)].
  apply render_one_author_quote_key. congruence.
Qed.

(** X14: the signature key decides the signature: two authors with the
    same key (the stripped names, links and dates, in order) are rendered
    the same, which is what lets [_render_section_items] sign a group of
    items once. *)
Theorem X14_signature_key_decides_quote (a b : value) (indent : list N) :
  _author_sig_key str_of_container a = _author_sig_key str_of_container b ->
  _render_author_quote str_of_container a indent
  = _render_author_quote str_of_container b indent.
Proof.
  unfold _author_sig_key, _render_author_quote. intros H.
  pose proof (render_quotes_key _ _ indent H) as Hq.
  destruct (_as_author_list a) as [|x la], (_as_author_list b) as [|y lb];
    try discriminate H; [reflexivity|].
  rewrite Hq. reflexivity.
Qed.

(** X15: when a signature is left out.  [_render_one_author_quote] returns
    the empty string exactly when the author is anonymous by name with no
    link and no date, or has neither a name nor a date; a link alone does
    not make a signature. *)
Theorem X15_signature_left_out (author : list (list N * value)) (indent : list N) :
  let name := strip (_s str_of_container (dict_get author (py "name"))) in
  let link := strip (_s str_of_container (dict_get author (py "link"))) in
  let date := strip (_s str_of_container (dict_get author (py "date"))) in
  _render_one_author_quote str_of_container author indent = []
  <-> (is_anonymous name = true /\ link = [] /\ date = [])
      \/ (name = [] /\ date = []).
Proof.
  cbv zeta. unfold _render_one_author_quote.
  set (name := strip (_s str_of_container (dict_get author (py "name")))).
  set (link := strip (_s str_of_container (dict_get author (py "link")))).
  set (date := strip (_s str_of_container (dict_get author (py "date")))).
  clearbody name link date.
  assert (forall x : list N, indent ++ py "> 文 / " ++ x <> []) as Hne.
  { intros x E. apply app_eq_nil in E as [_ E]. discriminate E. }
  destruct (is_anonymous name) eqn:A; destruct link as [|l0 link];
    destruct date as [|d0 date]; destruct name as [|n0 name];
    cbn [nonempty negb andb app];
    try (split; [intros _; auto; fail|reflexivity]);
    try (split; [intros E; exfalso; exact (Hne _ E)
                |intros [(H1 & H2 & H3)|(H1 & H2)]; congruence]);
    try (split; [intros _; right; auto|reflexivity]);
    try (split; [intros _; left; auto|reflexivity]).
Qed.

End HelperFacts.

Lemma X12_encode_shields_component_witness :
  strip (_s (fun _ => []) (VStr (py " 50% a-b ")))
  = strip (_s (fun _ => []) (VStr (py "50% a-b"))).
Proof.
  apply (X12_encode_shields_component_injective (fun _ => [])
           (VStr (py " 50% a-b ")) (VStr (py "50% a-b"))).
  reflexivity.
Defined.

Lemma X14_signature_key_witness :
  _render_author_quote (fun _ => [])
    (VDict [(py "name", VStr (py " Ann ")); (py "date", VScalar (py "2024"))]) []
  = _render_author_quote (fun _ => [])
      (VList [VDict [(py "date", VStr (py "2024")); (py "name", VStr (py "Ann"))]]) [].
Proof.
  apply (X14_signature_key_decides_quote (fun _ => [])
           (VDict [(py "name", VStr (py " Ann ")); (py "date", VScalar (py "2024"))])
           (VList [VDict [(py "date", VStr (py "2024")); (py "name", VStr (py "Ann"))]])
           []).
  reflexivity.
Defined.

(** ** Idempotence on canonical lines *)







Section Canonical.

Context (U : UnicodeTables).

















(** *** The indentation stack *)





(** *** Unordered items *)










(** *** Headings and text lines *)



(** *** The shapes of a canonical line *)



(** *** The main pass *)






(** *** The second and the fourth pass *)
















End Canonical.


